(** * Verification of the Gemini service helpers (src/services/gemini.ts)
    and of the proxy they call (src/unnamed/part_000)

    A shallow embedding of the logic of the two files:

    - the streaming path of [callGeminiApi] (lines 28-92): a [TextDecoder]
      feeding a growing buffer, re-scanned after every chunk with the
      regular expression of line 68, and its non-streaming path
      (lines 94-99);
    - [executeBulkParallel] (lines 155-165) and the bulk branch of
      [fetchLessonContent] (lines 559-595): fan-out, merge, de-duplication
      and truncation;
    - [cleanJson] (lines 168-170), [processTemplate] (lines 403-409) and
      the dual-notes format (lines 728-741);
    - the proxy [handler].

    JavaScript strings are sequences of UTF-16 code units; they are modelled
    as [list N].  Bytes delivered by the transport are [Byte.byte]. *)

From Stdlib Require Import NArith List Lia Ascii String Permutation.
From Stdlib.Strings Require Import Byte.
From Stdlib.Floats Require PrimFloat.
From stdpp Require Import base list gmap sets sorting.

Open Scope N_scope.

(** ** JavaScript strings *)

Module JsString.

Abbreviation jsstring := (list N).

(** The code units of an ASCII literal. *)
Definition codes (s : string) : jsstring :=
  map N_of_ascii (list_ascii_of_string s).

Definition DQUOTE : N := 34.      (* the double quote *)
Definition BACKSLASH : N := 92.
Definition COLON : N := 58.

(** [LineTerminator] of ECMAScript: the characters the regex atom [.]
    refuses (no [s] flag). *)
Definition is_line_terminator (c : N) : bool :=
  (c =? 10) || (c =? 13) || (c =? 0x2028) || (c =? 0x2029).

(** The regex class [\s]: [WhiteSpace] and [LineTerminator]. *)
Definition is_space (c : N) : bool :=
  (c =? 9) || (c =? 10) || (c =? 11) || (c =? 12) || (c =? 13) || (c =? 32)
  || (c =? 0xA0) || (c =? 0x1680) || ((0x2000 <=? c) && (c <=? 0x200A))
  || (c =? 0x2028) || (c =? 0x2029) || (c =? 0x202F) || (c =? 0x205F)
  || (c =? 0x3000) || (c =? 0xFEFF).

(** [s.length] *)
Definition js_length (s : jsstring) : nat := length s.

End JsString.
Import JsString.

(** ** The regular expression of line 68 *)

Module Regex.

(** The pattern is, writing Q for the double quote,
    [Q text Q : \s* Q ( (?: [^Q\\] | \\. )* ) Q].
    Its literal prefix, the quoted key and the colon: *)
Definition header : jsstring := DQUOTE :: codes "text" ++ [DQUOTE; COLON].

(** The regular expressions the pattern is built from, and the texts each
    of them matches.  The functions below compute the match; lemma
    [match_here_regex] relates them to this definition. *)
Inductive regex :=
| Eps
| Char (c : N)
| Class (p : N -> bool)
| Cat (r1 r2 : regex)
| Alt (r1 r2 : regex)
| Star (r : regex).

Inductive matches : regex -> jsstring -> Prop :=
| matches_eps : matches Eps []
| matches_char c : matches (Char c) [c]
| matches_class p c : p c = true -> matches (Class p) [c]
| matches_cat r1 r2 s1 s2 :
    matches r1 s1 -> matches r2 s2 -> matches (Cat r1 r2) (s1 ++ s2)
| matches_alt_l r1 r2 s : matches r1 s -> matches (Alt r1 r2) s
| matches_alt_r r1 r2 s : matches r2 s -> matches (Alt r1 r2) s
| matches_star_nil r : matches (Star r) []
| matches_star_cons r s1 s2 :
    matches r s1 -> matches (Star r) s2 -> matches (Star r) (s1 ++ s2).

Fixpoint Lit (s : jsstring) : regex :=
  match s with
  | [] => Eps
  | c :: s' => Cat (Char c) (Lit s')
  end.

(** [[^Q\\]] and [.] *)
Definition plain_char (c : N) : bool :=
  negb (c =? DQUOTE) && negb (c =? BACKSLASH).
Definition dot (c : N) : bool := negb (is_line_terminator c).

(** [(?: [^Q\\] | \\. )*] *)
Definition group_regex : regex :=
  Star (Alt (Class plain_char) (Cat (Char BACKSLASH) (Class dot))).

(** The whole pattern of line 68. *)
Definition text_regex : regex :=
  Cat (Lit header)
    (Cat (Star (Class is_space))
       (Cat (Char DQUOTE) (Cat group_regex (Char DQUOTE)))).

(** [strip_prefix p s] is the rest of [s] after the literal [p]. *)
Fixpoint strip_prefix (p s : jsstring) : option jsstring :=
  match p, s with
  | [], _ => Some s
  | _ :: _, [] => None
  | a :: p', c :: s' => if a =? c then strip_prefix p' s' else None
  end.

(** [\s*], greedy. *)
Fixpoint skip_spaces (s : jsstring) : jsstring :=
  match s with
  | c :: s' => if is_space c then skip_spaces s' else s
  | [] => []
  end.

(** The captured group [(?: [^Q\\] | \\. )*] and the closing quote: the
    capture and what follows the closing quote.  Neither alternative can
    start with a quote and they start with different characters, so the
    greedy star has one way to proceed and backtracking never finds
    another match. *)
Fixpoint match_body (s : jsstring) : option (jsstring * jsstring) :=
  match s with
  | [] => None
  | c :: s' =>
      if c =? DQUOTE then Some ([], s')
      else if c =? BACKSLASH then
        match s' with
        | [] => None
        | d :: s'' =>
            if is_line_terminator d then None
            else match match_body s'' with
                 | Some (cap, r) => Some (c :: d :: cap, r)
                 | None => None
                 end
        end
      else match match_body s' with
           | Some (cap, r) => Some (c :: cap, r)
           | None => None
           end
  end.

(** The texts the group [(?: [^Q\\] | \\. )*] matches. *)
Inductive group1 : jsstring -> Prop :=
| group1_nil : group1 []
| group1_plain c s :
    c <> DQUOTE -> c <> BACKSLASH -> group1 s -> group1 (c :: s)
| group1_escape d s :
    is_line_terminator d = false -> group1 s -> group1 (BACKSLASH :: d :: s).

(** A match of the whole pattern anchored at the start of [s]:
    capture group 1 and the text after the match. *)
Definition match_here (s : jsstring) : option (jsstring * jsstring) :=
  match strip_prefix header s with
  | None => None
  | Some s1 =>
      match skip_spaces s1 with
      | c :: s2 => if c =? DQUOTE then match_body s2 else None
      | [] => None
      end
  end.

(** [regex.exec(buffer)] with the [g] flag: the leftmost match at or after
    [lastIndex].  The argument is the buffer from [lastIndex] on; the
    second component of the result is the buffer from the new [lastIndex]
    on.  [None] is the [null] result. *)
Fixpoint exec (rem : jsstring) : option (jsstring * jsstring) :=
  match match_here rem with
  | Some r => Some r
  | None => match rem with
            | [] => None
            | _ :: rem' => exec rem'
            end
  end.

End Regex.

(** ** [JSON.parse] on a quoted string literal *)

Module Json.

Definition hex_digit (c : N) : option N :=
  if (48 <=? c) && (c <=? 57) then Some (c - 48)
  else if (97 <=? c) && (c <=? 102) then Some (c - 87)
  else if (65 <=? c) && (c <=? 70) then Some (c - 55)
  else None.

Definition hex4 (a b c d : N) : option N :=
  match hex_digit a, hex_digit b, hex_digit c, hex_digit d with
  | Some x, Some y, Some z, Some w => Some (((x * 16 + y) * 16 + z) * 16 + w)
  | _, _, _, _ => None
  end.

(** The single-character escapes of JSON. *)
Definition simple_escape (e : N) : option N :=
  if e =? 34 then Some 34            (* \Q  *)
  else if e =? 92 then Some 92       (* \\  *)
  else if e =? 47 then Some 47       (* \/  *)
  else if e =? 98 then Some 8        (* \b  *)
  else if e =? 102 then Some 12      (* \f  *)
  else if e =? 110 then Some 10      (* \n  *)
  else if e =? 114 then Some 13      (* \r  *)
  else if e =? 116 then Some 9       (* \t  *)
  else None.

(** The characters of a JSON string after its opening quote.  The text
    handed to [JSON.parse] ends with the closing quote, so anything after
    the first unescaped quote is a syntax error, as are raw control
    characters and unknown escapes.  [None] is the [SyntaxError]. *)
Fixpoint parse_string_body (s : jsstring) : option jsstring :=
  match s with
  | [] => None
  | c :: s' =>
      if c =? DQUOTE then
        match s' with [] => Some [] | _ :: _ => None end
      else if c =? BACKSLASH then
        match s' with
        | [] => None
        | e :: s'' =>
            if e =? 117 then                      (* \uXXXX *)
              match s'' with
              | h1 :: h2 :: h3 :: h4 :: s5 =>
                  match hex4 h1 h2 h3 h4 with
                  | Some u => option_map (cons u) (parse_string_body s5)
                  | None => None
                  end
              | _ => None
              end
            else
              match simple_escape e with
              | Some u => option_map (cons u) (parse_string_body s'')
              | None => None
              end
        end
      else if c <? 32 then None
      else option_map (cons c) (parse_string_body s')
  end.

(** [JSON.parse] of the template literal of line 74, the capture between
    two quotes: the argument always begins with a quote, so
    the value being parsed is a string literal. *)
Definition JSON_parse_quoted (m : jsstring) : option jsstring :=
  parse_string_body (m ++ [DQUOTE]).

End Json.

(** ** [TextDecoder] (UTF-8, [stream: true]) *)

Module Utf8.

(** The state of the UTF-8 decoder of the WHATWG Encoding Standard. *)
Record utf8_state := {
  code_point : N;
  bytes_seen : N;
  bytes_needed : N;
  lower_boundary : N;
  upper_boundary : N
}.

Definition utf8_init : utf8_state :=
  {| code_point := 0; bytes_seen := 0; bytes_needed := 0;
     lower_boundary := 0x80; upper_boundary := 0xBF |}.

Definition in_range (lo hi b : N) : bool := (lo <=? b) && (b <=? hi).

(** The handler when no continuation byte is expected. *)
Definition utf8_lead (b : N) : utf8_state * list N :=
  if b <=? 0x7F then (utf8_init, [b])
  else if in_range 0xC2 0xDF b then
    ({| code_point := N.land b 0x1F; bytes_seen := 0; bytes_needed := 1;
        lower_boundary := 0x80; upper_boundary := 0xBF |}, [])
  else if in_range 0xE0 0xEF b then
    ({| code_point := N.land b 0xF; bytes_seen := 0; bytes_needed := 2;
        lower_boundary := if b =? 0xE0 then 0xA0 else 0x80;
        upper_boundary := if b =? 0xED then 0x9F else 0xBF |}, [])
  else if in_range 0xF0 0xF4 b then
    ({| code_point := N.land b 0x7; bytes_seen := 0; bytes_needed := 3;
        lower_boundary := if b =? 0xF0 then 0x90 else 0x80;
        upper_boundary := if b =? 0xF4 then 0x8F else 0xBF |}, [])
  else (utf8_init, [0xFFFD]).

(** One byte through the handler: the new state and the code points
    emitted.  A byte outside the expected range ends the pending sequence
    with U+FFFD and is then read again as a lead byte. *)
Definition utf8_handler (st : utf8_state) (b : N) : utf8_state * list N :=
  if bytes_needed st =? 0 then utf8_lead b
  else if negb (in_range (lower_boundary st) (upper_boundary st) b) then
    let '(st', out) := utf8_lead b in (st', 0xFFFD :: out)
  else
    let cp := N.lor (N.shiftl (code_point st) 6) (N.land b 0x3F) in
    let seen := bytes_seen st + 1 in
    if seen =? bytes_needed st then (utf8_init, [cp])
    else ({| code_point := cp; bytes_seen := seen;
             bytes_needed := bytes_needed st;
             lower_boundary := 0x80; upper_boundary := 0xBF |}, []).

(** A code point as UTF-16 code units. *)
Definition utf16 (cp : N) : jsstring :=
  if cp <? 0x10000 then [cp]
  else let v := cp - 0x10000 in
       [0xD800 + N.shiftr v 10; 0xDC00 + N.land v 0x3FF].

(** The decoder object: the UTF-8 state and the BOM-seen flag
    ([ignoreBOM] is false: a leading U+FEFF is dropped). *)
Record TextDecoder := {
  utf8 : utf8_state;
  bom_seen : bool
}.

Definition new_TextDecoder : TextDecoder :=
  {| utf8 := utf8_init; bom_seen := false |}.

Fixpoint serialize (seen : bool) (cps : list N) : bool * jsstring :=
  match cps with
  | [] => (seen, [])
  | cp :: cps' =>
      let '(seen', out) := serialize true cps' in
      (seen', (if negb seen && (cp =? 0xFEFF) then [] else utf16 cp) ++ out)
  end.

(** [decoder.decode(value, { stream: true })]: pending bytes stay in the
    decoder; nothing is flushed. *)
Fixpoint decode (d : TextDecoder) (value : list byte) : TextDecoder * jsstring :=
  match value with
  | [] => (d, [])
  | b :: value' =>
      let '(st', cps) := utf8_handler (utf8 d) (Byte.to_N b) in
      let '(seen', out) := serialize (bom_seen d) cps in
      let '(d', out') := decode {| utf8 := st'; bom_seen := seen' |} value' in
      (d', out ++ out')
  end.

End Utf8.

(** ** The streaming path of [callGeminiApi] (lines 28-92) *)

Module Stream.
Import Regex Json Utf8.

(** Line 74 inside its [try]: the text appended for one match, nothing
    when [JSON.parse] throws. *)
Definition unescaped (m1 : jsstring) : jsstring :=
  match JSON_parse_quoted m1 with
  | Some v => v
  | None => []
  end.

(** Lines 71-76: [while ((match = regex.exec(buffer)) !== null)].  [rem] is
    the buffer from [lastIndex] on.  [fuel] bounds the iterations; [None]
    only when it runs out while a match is pending. *)
Fixpoint extract_loop (fuel : nat) (rem extractedText : jsstring)
  : option jsstring :=
  match exec rem with
  | None => Some extractedText
  | Some (m1, rem') =>
      match fuel with
      | O => None
      | S fuel' => extract_loop fuel' rem' (extractedText ++ unescaped m1)
      end
  end.

(** Lines 68-76 for one buffer.  A match consumes characters, so the
    length of the buffer is enough fuel (lemma [extract_loop_total]). *)
Definition extract (buffer : jsstring) : jsstring :=
  default [] (extract_loop (length buffer) buffer []).

(** The variables of the read loop, and the log of [onChunk] calls. *)
Record loop_state := {
  decoder : TextDecoder;
  buffer : jsstring;
  fullText : jsstring;
  calls : list jsstring
}.

Definition loop_init : loop_state :=
  {| decoder := new_TextDecoder; buffer := []; fullText := []; calls := [] |}.

(** [s.startsWith(c)] and [s.endsWith(c)] for a one-character [c]. *)
Definition startsWith (c : N) (s : jsstring) : bool :=
  match s with
  | x :: _ => x =? c
  | [] => false
  end.
Definition endsWith (c : N) (s : jsstring) : bool :=
  match last s with
  | Some x => x =? c
  | None => false
  end.

(** Lines 49-51: the buffer without a leading and a trailing bracket. *)
Definition without_brackets (buffer : jsstring) : jsstring :=
  let tempBuffer := buffer in
  let tempBuffer :=
    if startsWith 91 tempBuffer then drop 1 tempBuffer else tempBuffer in
  let tempBuffer :=
    if endsWith 93 tempBuffer
    then take (length tempBuffer - 1) tempBuffer else tempBuffer in
  tempBuffer.

(** One iteration of [while (true)] for a chunk [value] (lines 38-89).
    [tempBuffer] is computed as in the source and, as there, never read:
    the regular expression runs on [buffer]. *)
Definition read_step (st : loop_state) (value : list byte) : loop_state :=
  let '(d, chunk) := decode (decoder st) value in
  let buffer' := buffer st ++ chunk in
  let tempBuffer := without_brackets buffer' in
  let extractedText := extract buffer' in
  if (js_length (fullText st) <? js_length extractedText)%nat then
    {| decoder := d; buffer := buffer';
       fullText := extractedText;
       calls := calls st ++ [extractedText] |}
  else
    {| decoder := d; buffer := buffer';
       fullText := fullText st; calls := calls st |}.

(** The loop over the chunks the reader delivers before [done]. *)
Definition read_all (chunks : list (list byte)) : loop_state :=
  fold_left read_step chunks loop_init.

(** The value returned at line 91. *)
Definition callGeminiApi_stream (chunks : list (list byte)) : jsstring :=
  fullText (read_all chunks).

(** The arguments of the successive [onChunk] calls. *)
Definition onChunk_calls (chunks : list (list byte)) : list jsstring :=
  calls (read_all chunks).

(** One text is strictly shorter than another ([.length]). *)
Definition shorter (a b : jsstring) : Prop :=
  (js_length a < js_length b)%nat.

End Stream.

Import Regex Json Utf8 Stream.

(** ** The non-streaming path of [callGeminiApi] (lines 94-99) *)

Module JsValue.

(** The values [response.json()] can produce, and [undefined]. *)
#[local] Unset Elimination Schemes.
Inductive jsval :=
| JUndefined
| JNull
| JBool (b : bool)
| JNum (x : PrimFloat.float)
| JStr (s : jsstring)
| JArr (items : list jsval)
| JObj (fields : list (jsstring * jsval)).
#[local] Set Elimination Schemes.

Inductive error :=
| TypeError
| SyntaxError
| ApiError (detail : jsstring)
| OtherError.

(** The outcome of evaluating an expression or of awaiting a promise. *)
Inductive completion (A : Type) :=
| Normal (a : A)
| Throw (e : error).
Arguments Normal {A} a.
Arguments Throw {A} e.

Definition bind {A B} (c : completion A) (k : A -> completion B) : completion B :=
  match c with
  | Normal a => k a
  | Throw e => Throw e
  end.

(** An own property of a parsed object ([fields] has one entry per key). *)
Fixpoint own_property (key : jsstring) (fields : list (jsstring * jsval)) : jsval :=
  match fields with
  | [] => JUndefined
  | (k, v) :: fields' =>
      if bool_decide (k = key) then v else own_property key fields'
  end.

(** [v.name] for the four names read at line 96 ([candidates], [content],
    [parts], [text]): none is a built-in property of arrays, strings,
    numbers or booleans, so only an object can have one.  Reading a
    property of [undefined] or [null] throws. *)
Definition get_field (v : jsval) (name : jsstring) : completion jsval :=
  match v with
  | JUndefined | JNull => Throw TypeError
  | JObj fields => Normal (own_property name fields)
  | JBool _ | JNum _ | JStr _ | JArr _ => Normal JUndefined
  end.

(** [v[0]]: the first element of an array, the first code unit of a
    string, the property named 0 of an object. *)
Definition get_first (v : jsval) : completion jsval :=
  match v with
  | JUndefined | JNull => Throw TypeError
  | JArr items => Normal (match items with x :: _ => x | [] => JUndefined end)
  | JStr s => Normal (match s with c :: _ => JStr [c] | [] => JUndefined end)
  | JObj fields => Normal (own_property (codes "0") fields)
  | JBool _ | JNum _ => Normal JUndefined
  end.

(** Line 96: [data.candidates[0].content.parts[0].text]. *)
Definition first_candidate_text (data : jsval) : completion jsval :=
  bind (get_field data (codes "candidates")) (fun candidates =>
  bind (get_first candidates) (fun candidate =>
  bind (get_field candidate (codes "content")) (fun content =>
  bind (get_field content (codes "parts")) (fun parts =>
  bind (get_first parts) (fun part =>
  get_field part (codes "text")))))).

(** Lines 95-99: the [try] and its [catch]. *)
Definition callGeminiApi_json (data : jsval) : completion jsval :=
  match first_candidate_text data with
  | Normal v => Normal v
  | Throw _ => Normal (JStr [])
  end.

(** What the function sees of the [fetch] response. *)
Record Response := {
  ok : bool;
  text : jsstring;                        (* [await response.text()] *)
  body : option (list (list byte));       (* the chunks of [response.body] *)
  json : completion jsval                 (* [await response.json()] *)
}.

(** [callGeminiApi] after the [fetch] of line 13; [onChunk] tells whether
    the callback was supplied. *)
Definition callGeminiApi (response : Response) (onChunk : bool) : completion jsval :=
  if negb (ok response) then
    Throw (ApiError (codes "Gemini API Error: " ++ text response))
  else
    match onChunk, body response with
    | true, Some chunks => Normal (JStr (callGeminiApi_stream chunks))
    | _, _ => bind (json response) callGeminiApi_json
    end.

End JsValue.
Import JsValue.

(** ** [executeBulkParallel] (lines 155-165) *)

Module Bulk.

(** A settled promise. *)
Inductive settled (A : Type) :=
| Fulfilled (a : A)
| Rejected (e : error).
Arguments Fulfilled {A} a.
Arguments Rejected {A} e.

(** A task [() => Promise<T>] is represented by what its promise settles
    to.  [T] is the TypeScript type parameter: it does not contain
    [null]. *)
Definition task (T : Type) := settled T.

(** The results of the tasks that succeed, in the order of the tasks. *)
Fixpoint successes {T} (tasks : list (task T)) : list T :=
  match tasks with
  | [] => []
  | Fulfilled a :: tasks' => a :: successes tasks'
  | Rejected _ :: tasks' => successes tasks'
  end.

(** [t().catch(e => null)]: a value of type [T | null]. *)
Definition catch_null {T} (p : settled T) : settled (option T) :=
  match p with
  | Fulfilled a => Fulfilled (Some a)
  | Rejected _ => Fulfilled None
  end.

(** What [catch_null] leaves of a task: its result, or [null]. *)
Definition or_null {T} (t : task T) : option T :=
  match t with
  | Fulfilled a => Some a
  | Rejected _ => None
  end.

(** [Promise.all]: the values in the order of the promises, or a
    rejection when one of them rejects. *)
Fixpoint Promise_all {A} (ps : list (settled A)) : settled (list A) :=
  match ps with
  | [] => Fulfilled []
  | Fulfilled a :: ps' =>
      match Promise_all ps' with
      | Fulfilled l => Fulfilled (a :: l)
      | Rejected e => Rejected e
      end
  | Rejected e :: _ => Rejected e
  end.

(** [results.filter(r => r !== null)] *)
Definition filter_not_null {T} (results : list (option T)) : list T :=
  omap id results.

Inductive usage := PILOT | STUDENT.

Definition executeBulkParallel {T} (tasks : list (task T))
    (concurrency : N) (usageType : usage) : settled (list T) :=
  match Promise_all (map catch_null tasks) with
  | Fulfilled results => Fulfilled (filter_not_null results)
  | Rejected e => Rejected e
  end.

(** *** The schedule of line 163

    [tasks.map(t => t()...)] calls every task, in index order, within one
    synchronous turn; a call issues the task's request.  The promises
    settle in later turns, in an order the network chooses. *)
Inductive event :=
| Invoke (i : nat)
| Settle (i : nat).

Definition launch {T} (tasks : list (task T)) : list event :=
  map Invoke (seq 0 (length tasks)).

(** The trace of one call, given the order in which the tasks settle. *)
Definition schedule {T} (tasks : list (task T)) (concurrency : N)
    (order : list nat) : list event :=
  launch tasks ++ map Settle order.

(** The tasks with an outstanding request after a trace. *)
Fixpoint in_flight_after (running : list nat) (tr : list event) : list nat :=
  match tr with
  | [] => running
  | Invoke i :: tr' => in_flight_after (running ++ [i]) tr'
  | Settle i :: tr' =>
      in_flight_after (List.filter (fun j => negb (Nat.eqb i j)) running) tr'
  end.

Definition in_flight (tr : list event) : list nat := in_flight_after [] tr.

(** The ceiling holds on a trace when no prefix of it has more than
    [c] tasks in flight. *)
Definition respects_ceiling (c : nat) (tr : list event) : Prop :=
  forall k, (length (in_flight (take k tr)) <= c)%nat.

(** *** The bulk branch of [fetchLessonContent] (lines 559-595) *)

Section Dedup.

(** The item type ([MCQItem] of [../types], not needed beyond its
    [question] property): [question q] is [q.question], [None] when the
    property is absent and reads [undefined]. *)
Context {Item : Type} (question : Item -> option jsstring).

(** Lines 588-593 on a list of items: the [filter] whose callback
    consults and updates the set [seen]. *)
Fixpoint filter_unseen (seen : gset (option jsstring)) (data : list Item)
  : list Item :=
  match data with
  | [] => []
  | q :: data' =>
      let duplicate := bool_decide (question q ∈ seen) in
      let seen' := {[question q]} ∪ seen in
      if negb duplicate then q :: filter_unseen seen' data'
      else filter_unseen seen' data'
  end.

(** The replies are what [JSON.parse] returns (line 581), typed [any[]]:
    an element of a reply is an item or [null], a value of [option Item]
    with [None] for [null]. *)

(** Lines 588-593 on the elements of the replies.  At line 590 the
    callback reads [q.question]: on [null] that throws a [TypeError], and
    [filter] with it; the elements kept are items. *)
Fixpoint filter_elements (seen : gset (option jsstring))
    (data : list (option Item)) : completion (list Item) :=
  match data with
  | [] => Normal []
  | None :: _ => Throw TypeError
  | Some q :: data' =>
      let duplicate := bool_decide (question q ∈ seen) in
      let seen' := {[question q]} ∪ seen in
      match filter_elements seen' data' with
      | Throw e => Throw e
      | Normal kept => Normal (if negb duplicate then q :: kept else kept)
      end
  end.

(** Line 595. *)
Definition truncate (effectiveCount : nat) (data : list Item) : list Item :=
  if (effectiveCount <? length data)%nat then take effectiveCount data
  else data.

(** Lines 585-595 for given tasks: the final value of [data], or the
    exception that leaves the branch.  A reply that is not an array stays
    one element of [allResults.flat()]; it is the reply of one element
    here. *)
Definition bulk_data (effectiveCount : nat) (usageType : usage)
    (tasks : list (task (list (option Item)))) : settled (list Item) :=
  match executeBulkParallel tasks 50 usageType with
  | Rejected e => Rejected e
  | Fulfilled allResults =>
      let data := concat allResults in          (* [allResults.flat()] *)
      match filter_elements ∅ data with
      | Throw e => Rejected e
      | Normal data => Fulfilled (truncate effectiveCount data)
      end
  end.

(** Line 516 and lines 563-564: the count asked for and the number of
    sub-batches. *)
Definition effectiveCount (targetQuestions : nat) : nat :=
  Nat.max targetQuestions 20.
Definition batchSize : nat := 20.
Definition batches (targetQuestions : nat) : nat :=
  Nat.div (effectiveCount targetQuestions + (batchSize - 1)) batchSize.

(** Lines 562-595: the bulk branch, taken when [effectiveCount > 30];
    [run i] is what the task of batch [i] settles to. *)
Definition bulk_generation (targetQuestions : nat) (usageType : usage)
    (run : nat -> task (list (option Item))) : settled (list Item) :=
  bulk_data (effectiveCount targetQuestions) usageType
    (map run (seq 0 (batches targetQuestions))).

(** The de-duplication in the words of the specification: the item at
    position [i] is kept exactly when no earlier item has its key. *)
Definition first_occurrences (data : list Item) : list Item :=
  omap id
    (imap (fun i q =>
             if bool_decide (question q ∈ map question (take i data))
             then None else Some q) data).

(** A successful task contributes the elements of its reply, a failing
    one nothing. *)
Definition contribution {A} (t : task (list A)) : list A :=
  match t with
  | Fulfilled items => items
  | Rejected _ => []
  end.

Definition merged {A} (tasks : list (task (list A))) : list A :=
  concat (map contribution tasks).

(** The items of a list of elements none of which is [null]. *)
Fixpoint items_of (data : list (option Item)) : option (list Item) :=
  match data with
  | [] => Some []
  | Some q :: data' => option_map (cons q) (items_of data')
  | None :: _ => None
  end.


End Dedup.

End Bulk.
Import Bulk.

(** ** Streams made of text fields *)

Module Document.

(** One serialised field: the key, the colon, white space [ws] and the
    string literal with the characters [lit] between its quotes. *)
Definition text_field (ws lit : jsstring) : jsstring :=
  header ++ ws ++ DQUOTE :: lit ++ [DQUOTE].

(** A field of a stream with the text [gap] that follows it. *)
Record field := {
  spaces : jsstring;
  literal : jsstring;
  gap : jsstring
}.

Fixpoint render (fields : list field) : jsstring :=
  match fields with
  | [] => []
  | f :: fields' =>
      text_field (spaces f) (literal f) ++ gap f ++ render fields'
  end.

(** The stream: the text before the first field, then the fields. *)
Definition document (lead : jsstring) (fields : list field) : jsstring :=
  lead ++ render fields.

(** [occurs p s]: the text [p] occurs in [s]. *)
Fixpoint occurs (p s : jsstring) : bool :=
  match strip_prefix p s with
  | Some _ => true
  | None => match s with
            | [] => false
            | _ :: s' => occurs p s'
            end
  end.

Definition key_free (s : jsstring) : bool := negb (occurs header s).

(** The characters between the quotes of a literal: no quote unless after
    a backslash, no backslash at the end or before a line terminator.
    Every JSON string literal is of this kind (lemma [json_literal]). *)
Definition quoted_text (lit : jsstring) : bool :=
  bool_decide (match_body (lit ++ [DQUOTE]) = Some (lit, [])).

(** A field is well formed when its white space is white space, its
    literal is a quoted text and the text after it does not contain the
    quoted key followed by a colon. *)
Definition field_ok (f : field) : bool :=
  forallb is_space (spaces f)
  && quoted_text (literal f)
  && key_free (gap f).

Definition well_formed (lead : jsstring) (fields : list field) : bool :=
  key_free lead && forallb field_ok fields.

(** What a field contributes: its value, the literal as a JSON parser
    reads it, and nothing when the literal is not a JSON string. *)
Definition field_value (f : field) : jsstring := unescaped (literal f).

Definition text_values (fields : list field) : jsstring :=
  concat (map field_value fields).

End Document.
Import Document.

(** ** Texts as the sender encodes them

    The encodings of a Unicode scalar value in the words of the standards:
    UTF-8 as the Unicode Standard defines it (table 3-6), the bytes the
    transport delivers for a character, and the code units of a JavaScript
    string as ECMAScript defines them (UTF16EncodeCodePoint).  The decoder
    of the model is compared with them. *)

Module Unicode.

(** A Unicode scalar value: a code point that is not a surrogate. *)
Definition scalar_value (cp : N) : bool :=
  (cp <? 0xD800) || ((0xDFFF <? cp) && (cp <? 0x110000)).

(** The UTF-8 encoding of a scalar value, as numbers below 256. *)
Definition utf8_of (cp : N) : list N :=
  if cp <? 0x80 then [cp]
  else if cp <? 0x800 then [0xC0 + cp / 0x40; 0x80 + cp mod 0x40]
  else if cp <? 0x10000 then
    [0xE0 + cp / 0x1000; 0x80 + (cp / 0x40) mod 0x40; 0x80 + cp mod 0x40]
  else
    [0xF0 + cp / 0x40000; 0x80 + (cp / 0x1000) mod 0x40;
     0x80 + (cp / 0x40) mod 0x40; 0x80 + cp mod 0x40].

Definition byte_of (n : N) : byte := default x00 (Byte.of_N n).

(** The bytes of a text, a sequence of scalar values. *)
Definition utf8_bytes (text : list N) : list byte :=
  flat_map (fun cp => map byte_of (utf8_of cp)) text.

(** The code units of a scalar value: itself, or a surrogate pair. *)
Definition utf16_of (cp : N) : jsstring :=
  if cp <? 0x10000 then [cp]
  else [0xD800 + (cp - 0x10000) / 0x400; 0xDC00 + (cp - 0x10000) mod 0x400].

(** The string that holds a text. *)
Definition code_units (text : list N) : jsstring := flat_map utf16_of text.

(** A byte-order mark at the start of a stream is not part of its text
    (the decoder of line 30 is created without [ignoreBOM]). *)
Definition without_bom (text : list N) : list N :=
  match text with
  | cp :: text' => if cp =? 0xFEFF then text' else text
  | [] => []
  end.

(** A character that stands for itself between the quotes of a JSON
    string: no control character, quote or backslash. *)
Definition plain_scalar (cp : N) : bool :=
  scalar_value cp && (0x20 <=? cp) && negb (cp =? DQUOTE)
  && negb (cp =? BACKSLASH).

(** A code unit that stands for itself in a JSON string. *)
Definition plain_unit (c : N) : Prop :=
  32 <= c /\ c <> DQUOTE /\ c <> BACKSLASH.

(** The array of one object whose [text] field holds the text [s]. *)
Definition one_field (s : list N) : list N :=
  codes "[{" ++ header ++ DQUOTE :: s ++ DQUOTE :: codes "}]".

End Unicode.
Import Unicode.

(** ** Concrete streams, responses and batches *)

Module Examples.

Definition bytes (s : string) : list byte :=
  map byte_of_ascii (list_ascii_of_string s).
Definition Q : list byte := [x22].

(** The two chunks of the scenario of the specification, as written
    there: the first one ends with a quote after [Hel]. *)
Definition scenario_chunks : list (list byte) :=
  [ bytes "[{" ++ Q ++ bytes "text" ++ Q ++ bytes ":" ++ Q ++ bytes "Hel" ++ Q;
    bytes "lo" ++ Q ++ bytes "}]" ].

(** The same stream cut inside the string, with no quote after [Hel]. *)
Definition mid_string_chunks : list (list byte) :=
  [ bytes "[{" ++ Q ++ bytes "text" ++ Q ++ bytes ":" ++ Q ++ bytes "Hel";
    bytes "lo" ++ Q ++ bytes "}]" ].

(** A JSON array of one object whose [text] field is the string [a],
    written with a space on each side of the colon. *)
Definition spaced_chunks : list (list byte) :=
  [ bytes "[{" ++ Q ++ bytes "text" ++ Q ++ bytes " : " ++ Q ++ bytes "a"
      ++ Q ++ bytes "}]" ].
Definition spaced_buffer : jsstring :=
  codes "[{" ++ DQUOTE :: codes "text" ++ DQUOTE :: codes " : "
    ++ DQUOTE :: codes "a" ++ DQUOTE :: codes "}]".

(** Three objects delivered in three chunks; the literal of the second
    has an escape JSON does not know, the third a [\u] escape. *)
Definition three_field_chunks : list (list byte) :=
  [ bytes "[{" ++ Q ++ bytes "text" ++ Q ++ bytes ":" ++ Q ++ bytes "Hel";
    bytes "lo" ++ Q ++ bytes "},{" ++ Q ++ bytes "text" ++ Q ++ bytes ":"
      ++ Q ++ bytes "\x" ++ Q ++ bytes "},{" ++ Q ++ bytes "text" ++ Q
      ++ bytes ": " ++ Q ++ bytes "\u00e9";
    bytes "!" ++ Q ++ bytes "}]" ].
Definition three_fields : list field :=
  [ {| spaces := []; literal := codes "Hello"; gap := codes "},{" |};
    {| spaces := []; literal := codes "\x"; gap := codes "},{" |};
    {| spaces := codes " "; literal := codes "\u00e9!"; gap := codes "}]" |} ].

(** A two-byte character (C3 A9) cut between its bytes, and whole. *)
Definition split_char_chunks : list (list byte) :=
  [ bytes "[{" ++ Q ++ bytes "text" ++ Q ++ bytes ":" ++ Q ++ [xc3];
    [xa9] ++ Q ++ bytes "}]" ].
Definition whole_char_chunks : list (list byte) :=
  [ bytes "[{" ++ Q ++ bytes "text" ++ Q ++ bytes ":" ++ Q ++ [xc3; xa9]
      ++ Q ++ bytes "}]" ].

(** The text of two characters U+00E9 (C3 A9) and U+1F600 (F0 9F 98 80),
    cut inside each of them, and whole. *)
Definition split_emoji_chunks : list (list byte) :=
  [ bytes "[{" ++ Q ++ bytes "text" ++ Q ++ bytes ":" ++ Q ++ [xc3];
    [xa9; xf0; x9f];
    [x98; x80] ++ Q ++ bytes "}]" ].
Definition whole_emoji_chunks : list (list byte) :=
  [ bytes "[{" ++ Q ++ bytes "text" ++ Q ++ bytes ":" ++ Q
      ++ [xc3; xa9; xf0; x9f; x98; x80] ++ Q ++ bytes "}]" ].

(** A well-formed reply whose first part has no [text] property:
    [{ candidates: [ { content: { parts: [ {} ] } } ] }]. *)
Definition no_text_data : jsval :=
  JObj [(codes "candidates",
         JArr [JObj [(codes "content",
                      JObj [(codes "parts", JArr [JObj []])])]])].
Definition no_text_response : Response :=
  {| ok := true; text := []; body := None; json := Normal no_text_data |}.

(** Items reduced to their key and a tag, and two batches of them. *)
Definition item : Type := option jsstring * nat.
Definition item_question (q : item) : option jsstring := fst q.
Definition two_batches (i : nat) : task (list (option item)) :=
  match i with
  | O => Fulfilled [Some (Some (codes "a"), 0%nat); Some (None, 1%nat);
                    Some (Some (codes "a"), 2%nat)]
  | _ => Fulfilled [Some (Some (codes "b"), 3%nat); Some (None, 4%nat)]
  end.
Definition two_batches_items : list item :=
  [(Some (codes "a"), 0%nat); (None, 1%nat); (Some (codes "a"), 2%nat);
   (Some (codes "b"), 3%nat); (None, 4%nat)].

(** Two replies, the first with a [null] element: the arrays
    [[{question: a}, null]] and [[{question: b}]]. *)
Definition null_batches (i : nat) : task (list (option item)) :=
  match i with
  | O => Fulfilled [Some (Some (codes "a"), 0%nat); None]
  | _ => Fulfilled [Some (Some (codes "b"), 1%nat)]
  end.

Definition five_tasks : list (task unit) := replicate 5 (Fulfilled tt).

End Examples.
Import Examples.

(** ** Text helpers: [cleanJson] (lines 168-170) and the dual-notes
    format (lines 728-741) *)

Module Text.

(** [s.replace(/p/g, '')] for a pattern [p] made of literal characters:
    the occurrences of [p] found from left to right, none overlapping an
    earlier one, are left out.  [skip] counts the characters of the current
    occurrence still to be passed. *)
Fixpoint remove_all_from (p : jsstring) (skip : nat) (s : jsstring) : jsstring :=
  match s with
  | [] => []
  | c :: s' =>
      match skip with
      | S k => remove_all_from p k s'
      | O =>
          match strip_prefix p s with
          | Some _ => remove_all_from p (length p - 1) s'
          | None => c :: remove_all_from p 0 s'
          end
      end
  end.

Definition remove_all (p s : jsstring) : jsstring := remove_all_from p 0 s.

(** [s.trim()]: the white space of [String.prototype.trim] is that of the
    regex class [\s]. *)
Fixpoint trimStart (s : jsstring) : jsstring :=
  match s with
  | c :: s' => if is_space c then trimStart s' else s
  | [] => []
  end.

Definition trimEnd (s : jsstring) : jsstring := rev (trimStart (rev s)).

Definition trim (s : jsstring) : jsstring := trimEnd (trimStart s).

(** Three backquotes, and three backquotes followed by [json]. *)
Definition FENCE : jsstring := [96; 96; 96].
Definition FENCE_JSON : jsstring := FENCE ++ codes "json".

(** Lines 168-170. *)
Definition cleanJson (text : jsstring) : jsstring :=
  trim (remove_all FENCE (remove_all FENCE_JSON text)).

(** [s.includes(p)] *)
Fixpoint includes (s p : jsstring) : bool :=
  match strip_prefix p s with
  | Some _ => true
  | None => match s with
            | [] => false
            | _ :: s' => includes s' p
            end
  end.

(** [s.split(p)] for a non-empty separator [p]: the pieces between the
    occurrences of [p] found from left to right.  [piece] holds the
    characters of the current piece, [skip] as in [remove_all_from]. *)
Fixpoint split_from (p : jsstring) (skip : nat) (piece s : jsstring)
  : list jsstring :=
  match s with
  | [] => [piece]
  | c :: s' =>
      match skip with
      | S k => split_from p k piece s'
      | O =>
          match strip_prefix p s with
          | Some _ => piece :: split_from p (length p - 1) [] s'
          | None => split_from p 0 (piece ++ [c]) s'
          end
      end
  end.

Definition split (s p : jsstring) : list jsstring := split_from p 0 [] s.

(** The markers of the dual-notes prompt. *)
Definition PREMIUM : jsstring := codes "<<<PREMIUM>>>".
Definition SUMMARY : jsstring := codes "<<<SUMMARY>>>".

(** A string is truthy when it is not empty. *)
Definition nonempty (s : jsstring) : bool :=
  match s with
  | [] => false
  | _ :: _ => true
  end.

(** Lines 728-741: [premiumText] and [freeText] from the reply [rawText]. *)
Definition dual_notes (rawText : jsstring) : jsstring * jsstring :=
  let premiumText := [] in
  let freeText := [] in
  if includes rawText PREMIUM then
    let parts := split rawText PREMIUM in
    match parts !! 1%nat with
    | Some part1 =>
        if nonempty part1 then
          let subParts := split part1 SUMMARY in
          let premiumText := trim (List.nth 0 subParts []) in
          match subParts !! 1%nat with
          | Some sub1 =>
              if nonempty sub1 then (premiumText, trim sub1)
              else (premiumText, freeText)
          | None => (premiumText, freeText)
          end
        else (premiumText, freeText)
    | None => (premiumText, freeText)
    end
  else (rawText, codes "Summary not generated.").

End Text.
Import Text.

(** ** [processTemplate] (lines 403-409) *)

Module Template.

(** The keys of the three calls (lines 519-528, 568-577, 632-640). *)
Inductive slot :=
| k_board | k_class | k_stream | k_subject | k_chapter | k_language
| k_count | k_instruction.

Definition slot_name (k : slot) : jsstring :=
  match k with
  | k_board => codes "board"
  | k_class => codes "class"
  | k_stream => codes "stream"
  | k_subject => codes "subject"
  | k_chapter => codes "chapter"
  | k_language => codes "language"
  | k_count => codes "count"
  | k_instruction => codes "instruction"
  end.

(** The pattern built at line 406: the key between braces.  With these
    keys it has no special character, so it matches itself, letter case
    aside ([i] flag). *)
Definition placeholder (k : slot) : jsstring := 123 :: slot_name k ++ [125].

(** Under the [i] flag two characters match when they are equal once
    lower-case ASCII letters are made upper case; a pattern character of
    [placeholder] is ASCII, and no other character is made equal to an
    ASCII one. *)
Definition fold_case (c : N) : N :=
  if (97 <=? c) && (c <=? 122) then c - 32 else c.

Fixpoint strip_prefix_ci (p s : jsstring) : option jsstring :=
  match p, s with
  | [], _ => Some s
  | _ :: _, [] => None
  | a :: p', c :: s' =>
      if fold_case a =? fold_case c then strip_prefix_ci p' s' else None
  end.

(** The text inserted for one match by [String.prototype.replace] with a
    string as second argument and a pattern without groups: in [value],
    a dollar followed by a dollar, an ampersand, a backquote or an
    apostrophe stands for a dollar, the matched text, the text before the
    match and the text after it; any other dollar stays. *)
Fixpoint substitution (value matched before after : jsstring) : jsstring :=
  match value with
  | [] => []
  | c :: v =>
      if c =? 36 then
        match v with
        | [] => [c]
        | d :: v' =>
            if d =? 36 then 36 :: substitution v' matched before after
            else if d =? 38 then matched ++ substitution v' matched before after
            else if d =? 96 then before ++ substitution v' matched before after
            else if d =? 39 then after ++ substitution v' matched before after
            else c :: substitution v matched before after
        end
      else c :: substitution v matched before after
  end.

(** [s.replace(new RegExp(p, 'gi'), value)]: [before] is the part of the
    string already passed, [skip] counts the characters of the current
    match still to be passed. *)
Fixpoint replace_from (p value : jsstring) (skip : nat) (before s : jsstring)
  : jsstring :=
  match s with
  | [] => []
  | c :: s' =>
      match skip with
      | S k => replace_from p value k (before ++ [c]) s'
      | O =>
          match strip_prefix_ci p s with
          | Some after =>
              substitution value (take (length p) s) before after
                ++ replace_from p value (length p - 1) (before ++ [c]) s'
          | None => c :: replace_from p value 0 (before ++ [c]) s'
          end
      end
  end.

Definition replace_slot (k : slot) (value s : jsstring) : jsstring :=
  replace_from (placeholder k) value 0 [] s.

(** Lines 403-409; [replacements] lists the entries of the object in
    their order. *)
Definition processTemplate (template : jsstring)
    (replacements : list (slot * jsstring)) : jsstring :=
  fold_left (fun result '(key, value) => replace_slot key value result)
    replacements template.

(** The text has an occurrence of the pattern, letter case aside. *)
Fixpoint includes_ci (s p : jsstring) : bool :=
  match strip_prefix_ci p s with
  | Some _ => true
  | None => match s with
            | [] => false
            | _ :: s' => includes_ci s' p
            end
  end.

End Template.
Import Template.

(** ** The proxy [handler] (the edge function called at line 13) *)

Module Proxy.
Import PrimFloat.

(** [ToBoolean] *)
Definition truthy (v : jsval) : bool :=
  match v with
  | JUndefined | JNull => false
  | JBool b => b
  | JNum x => negb (is_zero x || is_nan x)
  | JStr s => nonempty s
  | JArr _ | JObj _ => true
  end.

(** Line 34: [keysRaw.split(",").map(k => k.trim()).filter(Boolean)]. *)
Definition env_keys (keysRaw : jsstring) : list jsstring :=
  List.filter nonempty (map trim (split keysRaw [44])).

(** Lines 29-39.  [env] is [process.env.GEMINI_API_KEYS]; [pick] is the
    value of [Math.floor(Math.random() * keys.length)]. *)
Definition choose_key (key : jsval) (env : option jsstring) (pick : nat) : jsval :=
  let apiKey := key in
  if negb (truthy apiKey) then
    match env with
    | Some keysRaw =>
        if nonempty keysRaw then
          let keys := env_keys keysRaw in
          if (0 <? length keys)%nat then
            match keys !! pick with
            | Some k => JStr k
            | None => JUndefined
            end
          else apiKey
        else apiKey
    | None => apiKey
    end
  else apiKey.

(** Line 26: [model || Q gemini-1.5-flash Q]. *)
Definition modelName (model : jsval) : jsval :=
  if truthy model then model else JStr (codes "gemini-1.5-flash").

(** [ToString], which the template literal of line 63 applies to
    [modelName] and [apiKey]: whether it throws.  A value read from JSON
    is converted by [Object.prototype.toString] or, for an array, by
    [Array.prototype.join], which converts the elements ([null] gives the
    empty text).  An object with an own property [toString] has no
    conversion: that property is not callable and the inherited [valueOf]
    returns the object, a [TypeError]. *)
Fixpoint ToString_throws (v : jsval) : bool :=
  match v with
  | JObj fields =>
      existsb (fun kv => bool_decide (fst kv = codes "toString")) fields
  | JArr items => existsb ToString_throws items
  | JUndefined | JNull | JBool _ | JNum _ | JStr _ => false
  end.

(** What the handler sees of the request. *)
Record Request := {
  req_method : jsstring;
  req_json : completion jsval                      (* [await req.json()] *)
}.

Inductive api_method := generateContent | streamGenerateContent.

(** The [fetch] of line 65: the values written into the URL at line 63
    (as values, their conversion to text is not modelled beyond
    [ToString_throws]) and the payload handed to [JSON.stringify]. *)
Record upstream_request := {
  url_model : jsval;
  url_method : api_method;
  url_key : jsval;
  payload : jsval
}.

(** [geminiRes] *)
Record upstream_response := {
  up_status : N;
  up_text : completion jsstring;                   (* [await geminiRes.text()] *)
  up_body : option (list (list byte));             (* [geminiRes.body] *)
  up_json : completion jsval                       (* [await geminiRes.json()] *)
}.

(** [geminiRes.ok] *)
Definition up_ok (r : upstream_response) : bool :=
  (200 <=? up_status r) && (up_status r <=? 299).

(** The first argument of [new Response]. *)
Inductive body_init :=
| JsonOf (v : jsval)                               (* [JSON.stringify(v)] *)
| InternalError (e : error)                        (* the text built at line 102 *)
| Passthrough (b : option (list (list byte))).     (* [geminiRes.body] *)

Record response := {
  status : N;
  json_header : bool;            (* [Content-Type: application/json] *)
  chunked : bool;                (* [Transfer-Encoding: chunked] *)
  content : body_init
}.

(** [new Response(body, { status, headers })]: a status outside 200-599
    is a [RangeError], a body with a null-body status a [TypeError]. *)
Definition null_body_status (s : N) : bool :=
  (s =? 101) || (s =? 103) || (s =? 204) || (s =? 205) || (s =? 304).

Definition has_body (body : body_init) : bool :=
  match body with
  | Passthrough None => false
  | _ => true
  end.

Definition new_Response (body : body_init) (s : N) (json chunk : bool)
  : completion response :=
  if (s <? 200) || (599 <? s) then Throw OtherError
  else if null_body_status s && has_body body then Throw TypeError
  else Normal {| status := s; json_header := json; chunked := chunk;
                 content := body |}.

Definition error_body (msg : string) : body_init :=
  JsonOf (JObj [(codes "error", JStr (codes msg))]).

(** Lines 49-59. *)
Definition make_payload (contents system_instruction tools tool_config : jsval)
  : jsval :=
  JObj ([(codes "contents", contents);
         (codes "generationConfig",
          JObj [(codes "temperature", JNum 0x1.6666666666666p-1);
                (codes "maxOutputTokens", JNum 8192)])]
        ++ (if truthy system_instruction
            then [(codes "systemInstruction", system_instruction)] else [])
        ++ (if truthy tools then [(codes "tools", tools)] else [])
        ++ (if truthy tool_config then [(codes "toolConfig", tool_config)] else [])).

(** The body of the [try] of lines 8-100: the upstream calls made and the
    response, or the exception. *)
Definition handler_try (req : Request) (env : option jsstring) (pick : nat)
    (fetch : upstream_request -> completion upstream_response)
  : list upstream_request * completion response :=
  if negb (bool_decide (req_method req = codes "POST")) then
    ([], new_Response (error_body "Method not allowed") 405 true false)
  else
    match req_json req with
    | Throw _ => ([], new_Response (error_body "Invalid JSON body") 400 false false)
    | Normal body =>
        match
          bind (get_field body (codes "contents")) (fun contents =>
          bind (get_field body (codes "model")) (fun model =>
          bind (get_field body (codes "tools")) (fun tools =>
          bind (get_field body (codes "tool_config")) (fun tool_config =>
          bind (get_field body (codes "key")) (fun key =>
          bind (get_field body (codes "stream")) (fun stream =>
          bind (get_field body (codes "system_instruction")) (fun system_instruction =>
          Normal (contents, model, tools, tool_config, key, stream,
                  system_instruction))))))))
        with
        | Throw e => ([], Throw e)
        | Normal (contents, model, tools, tool_config, key, stream,
                  system_instruction) =>
            let modelName := modelName model in
            let apiKey := choose_key key env pick in
            if negb (truthy apiKey) then
              ([], new_Response
                     (error_body
                        "Server Configuration Error: No valid Gemini keys found.")
                     500 true false)
            else if ToString_throws modelName || ToString_throws apiKey then
              ([], Throw TypeError)                              (* line 63 *)
            else
              let request :=
                {| url_model := modelName;
                   url_method := if truthy stream then streamGenerateContent
                                 else generateContent;
                   url_key := apiKey;
                   payload := make_payload contents system_instruction tools
                                tool_config |} in
              match fetch request with
              | Throw e => ([request], Throw e)
              | Normal geminiRes =>
                  if negb (up_ok geminiRes) then
                    match up_text geminiRes with
                    | Throw e => ([request], Throw e)
                    | Normal errorText =>
                        ([request],
                         new_Response
                           (JsonOf (JObj [(codes "error",
                                           JStr (codes "Gemini API Error"));
                                          (codes "detail", JStr errorText)]))
                           (up_status geminiRes) true false)
                    end
                  else if truthy stream then
                    ([request],
                     new_Response (Passthrough (up_body geminiRes)) 200 true true)
                  else
                    match up_json geminiRes with
                    | Throw e => ([request], Throw e)
                    | Normal data =>
                        ([request], new_Response (JsonOf data) 200 true false)
                    end
              end
        end
    end.

(** Lines 7-106: the [catch] turns any exception into a 500 reply. *)
Definition handler (req : Request) (env : option jsstring) (pick : nat)
    (fetch : upstream_request -> completion upstream_response)
  : list upstream_request * response :=
  match handler_try req env pick fetch with
  | (calls, Normal r) => (calls, r)
  | (calls, Throw e) =>
      (calls, {| status := 500; json_header := true; chunked := false;
                 content := InternalError e |})
  end.

(** The body [callGeminiApi] posts (lines 16-20), as [req.json()] reads
    it back. *)
Definition client_body (prompt model : jsstring) (onChunk : bool) : jsval :=
  JObj [(codes "contents",
         JArr [JObj [(codes "role", JStr (codes "user"));
                     (codes "parts", JArr [JObj [(codes "text", JStr prompt)]])]]);
        (codes "model", JStr model);
        (codes "stream", JBool onChunk)].

(** A POST request whose body parses to [body]. *)
Definition POST (body : jsval) : Request :=
  {| req_method := codes "POST"; req_json := Normal body |}.

(** The statuses [new Response] refuses for a reply with a body. *)
Definition bad_status (s : N) : bool :=
  (s <? 200) || (599 <? s) || null_body_status s.

(** A key without a comma, not empty and without white space at either
    end. *)
Definition clean_key (k : jsstring) : Prop :=
  k <> [] /\ (44 ∉ k)
  /\ match k with c :: _ => is_space c = false | [] => True end
  /\ match last k with Some c => is_space c = false | None => True end.

End Proxy.
Import Proxy.

(** ** Replies without a candidate, and more concrete data *)

Module MoreExamples.

(** The reply is no object, or its [candidates] property is missing,
    [null] or an empty array. *)
Definition candidates_absent (data : jsval) : bool :=
  match data with
  | JObj fields =>
      match own_property (codes "candidates") fields with
      | JUndefined | JNull | JArr [] => true
      | _ => false
      end
  | _ => true
  end.

(** A stream of two chunks in which the quoted key never occurs. *)
Definition keyless_chunks : list (list byte) :=
  [ bytes "[{" ++ Q ++ bytes "error" ++ Q ++ bytes ":"; bytes "{}}]" ].

(** A reply blocked upstream: no candidates. *)
Definition blocked_data : jsval :=
  JObj [(codes "promptFeedback", JObj [(codes "blockReason", JStr (codes "SAFETY"))])].

(** Two batches of twenty items with forty different questions. *)
Definition fresh_items (i : nat) : list item :=
  map (fun j => (Some [N.of_nat (20 * i + j)], j)) (seq 0 20).

(** A request that brings its own key, and one that does not. *)
Definition keyed_fields : list (jsstring * jsval) :=
  [(codes "contents", JArr []); (codes "key", JStr (codes "K"))].
Definition too_many_requests : upstream_response :=
  {| up_status := 429; up_text := Normal (codes "quota");
     up_body := None; up_json := Throw SyntaxError |}.
(** A request whose key is the empty array: truthy, and the empty text
    once written into the URL. *)
Definition empty_array_key : list (jsstring * jsval) :=
  [(codes "contents", JArr []); (codes "key", JArr [])].
(** A request whose model has no conversion to text. *)
Definition unprintable_model : list (jsstring * jsval) :=
  [(codes "model", JObj [(codes "toString", JNull)]);
   (codes "key", JStr (codes "K"))].
Definition unreachable : upstream_request -> completion upstream_response :=
  fun _ => Throw OtherError.

End MoreExamples.
Import MoreExamples.


#[local] Set Warnings "-clear-no-such-hyp".

(** * Properties *)

(** ** The regular expression *)

Module RegexFacts.

Lemma strip_prefix_Some p s r :
  strip_prefix p s = Some r <-> s = p ++ r.
Proof.
  revert s. induction p as [|a p IH]; intros s; simpl.
  - split; congruence.
  - destruct s as [|c s]; [split; discriminate|].
    destruct (N.eqb_spec a c) as [->|Hne].
    + rewrite IH. split; congruence.
    + split; [discriminate|]. intros [=]. congruence.
Qed.

Lemma strip_prefix_app p r : strip_prefix p (p ++ r) = Some r.
Proof. by apply strip_prefix_Some. Qed.

Lemma quote_not_space : is_space DQUOTE = false.
Proof. reflexivity. Qed.

Lemma skip_spaces_app ws r :
  forallb is_space ws = true -> skip_spaces (ws ++ DQUOTE :: r) = DQUOTE :: r.
Proof.
  induction ws as [|w ws IH]; simpl; [done|].
  intros [Hw Hws]%andb_prop. rewrite Hw. auto.
Qed.

Lemma skip_spaces_split s :
  exists ws, s = ws ++ skip_spaces s /\ forallb is_space ws = true
    /\ match skip_spaces s with c :: _ => is_space c = false | [] => True end.
Proof.
  induction s as [|c s (ws & Heq & Hws & Hhd)]; simpl.
  - by exists [].
  - destruct (is_space c) eqn:Hc.
    + exists (c :: ws). simpl. rewrite Hc, Hws. split; [congruence|done].
    + exists []. simpl. by rewrite Hc.
Qed.

Lemma match_body_sound s cap r :
  match_body s = Some (cap, r) -> s = cap ++ DQUOTE :: r /\ group1 cap.
Proof.
  remember (length s) as n eqn:Hn. revert s cap r Hn.
  induction n as [n IH] using lt_wf_ind. intros [|c s] cap r Hn; simpl; [done|].
  destruct (N.eqb_spec c DQUOTE) as [->|Hq].
  - intros [= <- <-]. split; [done|constructor].
  - destruct (N.eqb_spec c BACKSLASH) as [->|Hb].
    + destruct s as [|d s]; [done|].
      destruct (is_line_terminator d) eqn:Hd; [done|].
      destruct (match_body s) as [[cap' r']|] eqn:Hm; [|done].
      intros [= <- <-].
      destruct (IH (length s) ltac:(simpl in Hn; lia) s cap' r' eq_refl Hm) as [-> Hg].
      split; [done|by constructor].
    + destruct (match_body s) as [[cap' r']|] eqn:Hm; [|done].
      intros [= <- <-].
      destruct (IH (length s) ltac:(simpl in Hn; lia) s cap' r' eq_refl Hm) as [-> Hg].
      split; [done|by constructor].
Qed.

Lemma match_body_complete cap r :
  group1 cap -> match_body (cap ++ DQUOTE :: r) = Some (cap, r).
Proof.
  induction 1 as [|c s Hq Hb _ IH|d s Hd _ IH]; simpl.
  - done.
  - destruct (N.eqb_spec c DQUOTE); [done|].
    destruct (N.eqb_spec c BACKSLASH); [done|]. by rewrite IH.
  - rewrite Hd. by rewrite IH.
Qed.

Lemma match_here_sound s cap r :
  match_here s = Some (cap, r) ->
  exists ws, s = header ++ ws ++ DQUOTE :: cap ++ DQUOTE :: r
             /\ forallb is_space ws = true /\ group1 cap.
Proof.
  unfold match_here. destruct (strip_prefix header s) as [s1|] eqn:Hs; [|done].
  apply strip_prefix_Some in Hs as ->.
  destruct (skip_spaces_split s1) as (ws & Heq & Hws & _).
  destruct (skip_spaces s1) as [|c s2]; [done|].
  destruct (N.eqb_spec c DQUOTE) as [->|]; [|done].
  intros [-> Hg]%match_body_sound. exists ws. by rewrite Heq at 1.
Qed.

Lemma match_here_complete ws cap r :
  forallb is_space ws = true -> group1 cap ->
  match_here (header ++ ws ++ DQUOTE :: cap ++ DQUOTE :: r) = Some (cap, r).
Proof.
  intros Hws Hg. unfold match_here.
  rewrite strip_prefix_app, skip_spaces_app by done. simpl.
  by apply match_body_complete.
Qed.

(** A match reads nothing beyond its end. *)
Lemma match_here_app s u cap r :
  match_here s = Some (cap, r) -> match_here (s ++ u) = Some (cap, r ++ u).
Proof.
  intros (ws & -> & Hws & Hg)%match_here_sound.
  rewrite <- (match_here_complete ws cap (r ++ u)) by done.
  f_equal. by rewrite <- !app_assoc; simpl; rewrite <- app_assoc.
Qed.

Lemma match_here_shorter s cap r :
  match_here s = Some (cap, r) -> (length r + 9 <= length s)%nat.
Proof.
  intros (ws & -> & _ & _)%match_here_sound.
  rewrite !length_app. simpl. rewrite length_app. simpl. lia.
Qed.

Lemma app_eq_split (s u a r : jsstring) :
  s ++ u = a ++ r -> (length u <= length r)%nat ->
  exists r0, r = r0 ++ u /\ s = a ++ r0.
Proof.
  intros Heq Hlen. apply app_eq_app in Heq as [l [[-> ->]|[-> ->]]].
  - by exists l.
  - rewrite length_app in Hlen. destruct l; [|simpl in Hlen; lia].
    exists []. simpl. by rewrite ?app_nil_r.
Qed.

(** A match that ends inside [s] is a match of [s]. *)
Lemma match_here_restrict s u cap r :
  match_here (s ++ u) = Some (cap, r) -> (length u <= length r)%nat ->
  exists r0, r = r0 ++ u /\ match_here s = Some (cap, r0).
Proof.
  intros Hm Hlen.
  destruct (match_here_sound _ _ _ Hm) as (ws & Heq & Hws & Hg).
  replace (header ++ ws ++ DQUOTE :: cap ++ DQUOTE :: r)
    with ((header ++ ws ++ DQUOTE :: cap ++ [DQUOTE]) ++ r) in Heq
    by (rewrite <- !app_assoc; simpl; by rewrite <- app_assoc).
  destruct (app_eq_split _ _ _ _ Heq Hlen) as (r0 & -> & ->).
  exists r0. split; [done|].
  rewrite <- (match_here_complete ws cap r0) by done. f_equal.
  rewrite <- !app_assoc. simpl. by rewrite <- !app_assoc.
Qed.

Lemma suffix_cons_case (x : jsstring) y l :
  x `suffix_of` y :: l -> x = y :: l \/ x `suffix_of` l.
Proof.
  intros [[|a k] Hk]; [by left|right].
  injection Hk as _ ->. by exists k.
Qed.

Lemma match_here_head c s cap r :
  match_here (c :: s) = Some (cap, r) -> c = DQUOTE.
Proof.
  intros (ws & Heq & _)%match_here_sound. by injection Heq.
Qed.

(** A quote followed by a group text and its closing quote: a match
    starting at that quote ends beyond the closing quote. *)
Lemma overlap_at_quote s r cap' r' :
  group1 s -> match_here (DQUOTE :: s ++ DQUOTE :: r) = Some (cap', r') ->
  (length r' < length r)%nat.
Proof.
  intros Hs (ws & Heq & _ & _)%match_here_sound.
  injection Heq as Heq.
  pose proof (match_body_complete s r Hs) as Hm.
  rewrite Heq in Hm. cbn in Hm. injection Hm as _ <-.
  simpl. rewrite !length_app. simpl. rewrite length_app. simpl. lia.
Qed.

Lemma overlap_in_group cap r x cap' r' :
  group1 cap -> x `suffix_of` (cap ++ DQUOTE :: r) ->
  match_here x = Some (cap', r') -> (length r' < length r)%nat.
Proof.
  intros Hg. revert x. induction Hg as [|c s Hq Hb Hs IH|d s Hd Hs IH]; intros x Hx Hm.
  - apply suffix_length in Hx. apply match_here_shorter in Hm. simpl in Hx. lia.
  - apply suffix_cons_case in Hx as [->|Hx]; [|by eauto].
    by apply match_here_head in Hm.
  - apply suffix_cons_case in Hx as [->|Hx].
    { by apply match_here_head in Hm. }
    apply suffix_cons_case in Hx as [->|Hx]; [|by eauto].
    pose proof (match_here_head _ _ _ _ Hm) as ->.
    by eapply overlap_at_quote.
Qed.

(** Two matches that overlap: the one that starts later ends later. *)
Lemma overlap s cap r x cap' r' :
  match_here s = Some (cap, r) -> x `suffix_of` s -> x <> s ->
  match_here x = Some (cap', r') -> (length r' < length r)%nat.
Proof.
  intros (ws & -> & Hws & Hg)%match_here_sound Hx Hne Hm.
  cbn [header codes map list_ascii_of_string app] in Hx.
  apply suffix_cons_case in Hx as [->|Hx]; [done|].
  do 6 (apply suffix_cons_case in Hx as [->|Hx];
        [first [by apply match_here_head in Hm | by cbv in Hm]|]).
  clear Hne. induction ws as [|w ws IH]; simpl in *.
  - apply suffix_cons_case in Hx as [->|Hx].
    + by eapply overlap_at_quote.
    + by eapply overlap_in_group.
  - apply andb_prop in Hws as [Hw Hws].
    apply suffix_cons_case in Hx as [->|Hx]; [|by auto].
    apply match_here_head in Hm as ->. done.
Qed.

Lemma exec_nil : exec [] = None.
Proof. reflexivity. Qed.

Lemma exec_cons c s :
  exec (c :: s) = match match_here (c :: s) with
                  | Some m => Some m
                  | None => exec s
                  end.
Proof. reflexivity. Qed.

(** What [exec] returns is a match at some position. *)
Lemma exec_Some s cap r :
  exec s = Some (cap, r) ->
  exists x, x `suffix_of` s /\ match_here x = Some (cap, r).
Proof.
  induction s as [|c s IH]; [done|]. rewrite exec_cons.
  destruct (match_here (c :: s)) as [m|] eqn:Hm.
  - intros [= ->]. by exists (c :: s).
  - intros (x & Hx & Hmx)%IH. exists x. split; [by apply suffix_cons_r|done].
Qed.

Lemma exec_shorter s cap r :
  exec s = Some (cap, r) -> (length r < length s)%nat.
Proof.
  intros (x & Hx%suffix_length & Hm%match_here_shorter)%exec_Some. lia.
Qed.

(** Appending text to the buffer keeps its first match. *)
Lemma exec_app s u cap r :
  exec s = Some (cap, r) -> exec (s ++ u) = Some (cap, r ++ u).
Proof.
  induction s as [|c s IH]; [done|]. simpl app. rewrite !exec_cons.
  destruct (match_here (c :: s)) as [m|] eqn:Hm.
  - intros [= ->]. pose proof (match_here_app (c :: s) u cap r Hm) as Hm'.
    simpl in Hm'. by rewrite Hm'.
  - intros He. destruct (match_here (c :: s ++ u)) as [[cap0 r0]|] eqn:Hm0; [|by auto].
    exfalso.
    destruct (decide (length u <= length r0)%nat) as [Hle|Hgt].
    + destruct (match_here_restrict (c :: s) u cap0 r0 Hm0 Hle) as (? & _ & ?).
      congruence.
    + destruct (exec_Some _ _ _ He) as (x & Hx & Hmx).
      apply (match_here_app _ u) in Hmx.
      assert (length (r ++ u) < length r0)%nat; [|rewrite length_app in *; lia].
      eapply (overlap (c :: s ++ u)); [done| |  |done].
      * apply suffix_cons_r. by apply suffix_app.
      * intros Heq%(f_equal length). apply suffix_length in Hx.
        rewrite length_app in Heq. simpl in Heq. rewrite length_app in Heq. lia.
Qed.

Lemma matches_cat_inv r1 r2 s :
  matches (Cat r1 r2) s ->
  exists s1 s2, s = s1 ++ s2 /\ matches r1 s1 /\ matches r2 s2.
Proof. inversion 1; subst; eauto. Qed.

Lemma matches_char_inv c s : matches (Char c) s -> s = [c].
Proof. by inversion 1. Qed.

Lemma matches_Lit p s : matches (Lit p) s <-> s = p.
Proof.
  revert s. induction p as [|c p IH]; intros s; simpl.
  - split; [by inversion 1|intros ->; constructor].
  - split.
    + inversion 1 as [| | |? ? s1 s2 H1 H2| | | |]; subst.
      inversion H1; subst. apply IH in H2 as ->. done.
    + intros ->. apply (matches_cat _ _ [c] p); [constructor|by apply IH].
Qed.

Lemma matches_star_class f s :
  matches (Star (Class f)) s <-> forallb f s = true.
Proof.
  split.
  - remember (Star (Class f)) as r eqn:Hr. induction 1 as [| | | | | | |r s1 s2 H1 _ H2 IH];
      try discriminate; [done|].
    injection Hr as ->. inversion H1; subst. simpl.
    rewrite IH by done. by rewrite andb_true_r.
  - induction s as [|c s IH]; simpl; [constructor|].
    intros [Hc Hs]%andb_prop.
    apply (matches_star_cons _ [c] s); [by constructor|auto].
Qed.

Lemma matches_group s : matches group_regex s <-> group1 s.
Proof.
  unfold group_regex. split.
  - remember (Star _) as r eqn:Hr.
    induction 1 as [| | | | | | |r s1 s2 H1 _ H2 IH]; try discriminate; [constructor|].
    injection Hr as ->. specialize (IH eq_refl).
    inversion H1 as [| | | |? ? ? Hl|? ? ? Hr| |]; subst.
    + inversion Hl as [| |? c Hc| | | | |]; subst. simpl.
      unfold plain_char in Hc. apply andb_prop in Hc as [Hq Hb].
      apply group1_plain; [| |done].
      * intros ->. done.
      * intros ->. done.
    + inversion Hr as [| | |? ? a b Ha Hb| | | |]; subst.
      inversion Ha; subst. inversion Hb as [| |? d Hd| | | | |]; subst. simpl.
      apply group1_escape; [|done].
      unfold dot in Hd. by destruct (is_line_terminator d).
  - induction 1 as [|c s Hq Hb _ IH|d s Hd _ IH].
    + constructor.
    + apply (matches_star_cons _ [c] s); [|done].
      apply matches_alt_l, matches_class. unfold plain_char.
      destruct (N.eqb_spec c DQUOTE); [done|].
      by destruct (N.eqb_spec c BACKSLASH).
    + apply (matches_star_cons _ [BACKSLASH; d] s); [|done].
      apply matches_alt_r, (matches_cat _ _ [BACKSLASH] [d]); constructor.
      unfold dot. by rewrite Hd.
Qed.

(** The texts the pattern matches. *)
Lemma matches_text_regex m :
  matches text_regex m <->
  exists ws cap, m = header ++ ws ++ DQUOTE :: cap ++ [DQUOTE]
                 /\ matches (Star (Class is_space)) ws
                 /\ matches group_regex cap.
Proof.
  unfold text_regex. split.
  - intros (s1 & s2 & -> & ->%matches_Lit & H2)%matches_cat_inv.
    apply matches_cat_inv in H2 as (ws & s3 & -> & Hws & H3).
    apply matches_cat_inv in H3 as (q1 & s4 & -> & ->%matches_char_inv & H4).
    apply matches_cat_inv in H4 as (cap & q2 & -> & Hcap & ->%matches_char_inv).
    by exists ws, cap.
  - intros (ws & cap & -> & Hws & Hcap).
    apply matches_cat; [by apply matches_Lit|].
    apply matches_cat; [done|].
    apply (matches_cat _ _ [DQUOTE]); [constructor|].
    apply matches_cat; [done|constructor].
Qed.

(** [match_here] finds a match of the pattern at the start of the text,
    with its capture. *)
Lemma match_here_regex s cap r :
  match_here s = Some (cap, r) <->
  exists ws, s = (header ++ ws ++ DQUOTE :: cap ++ [DQUOTE]) ++ r
             /\ matches (Star (Class is_space)) ws
             /\ matches group_regex cap.
Proof.
  split.
  - intros (ws & -> & Hws & Hg)%match_here_sound. exists ws.
    rewrite matches_star_class, matches_group. split; [|done].
    rewrite <- !app_assoc. simpl. by rewrite <- !app_assoc.
  - intros (ws & -> & Hws%matches_star_class & Hg%matches_group).
    rewrite <- (match_here_complete ws cap r) by done. f_equal.
    rewrite <- !app_assoc. simpl. by rewrite <- !app_assoc.
Qed.

(** At most one prefix of a text matches the pattern: the order in
    which a backtracking matcher tries the alternatives does not matter. *)
Lemma text_regex_unique_prefix m1 r1 m2 r2 :
  matches text_regex m1 -> matches text_regex m2 ->
  m1 ++ r1 = m2 ++ r2 -> m1 = m2 /\ r1 = r2.
Proof.
  intros (ws1 & cap1 & -> & Hws1 & Hc1)%matches_text_regex
         (ws2 & cap2 & -> & Hws2 & Hc2)%matches_text_regex Heq.
  assert (match_here ((header ++ ws1 ++ DQUOTE :: cap1 ++ [DQUOTE]) ++ r1)
          = Some (cap1, r1)) as H1 by (apply match_here_regex; eauto).
  assert (match_here ((header ++ ws2 ++ DQUOTE :: cap2 ++ [DQUOTE]) ++ r2)
          = Some (cap2, r2)) as H2 by (apply match_here_regex; eauto).
  rewrite Heq, H2 in H1. injection H1 as -> ->.
  split; [|done]. by apply app_inv_tail in Heq.
Qed.

(** [exec] returns the leftmost match. *)
Lemma exec_leftmost s cap r :
  exec s = Some (cap, r) ->
  exists pre x, s = pre ++ x /\ match_here x = Some (cap, r)
    /\ forall pre' y, pre = pre' ++ y -> y <> [] -> match_here (y ++ x) = None.
Proof.
  induction s as [|c s IH]; [done|]. rewrite exec_cons.
  destruct (match_here (c :: s)) as [m|] eqn:Hm.
  - intros [= ->]. exists [], (c :: s). split; [done|]. split; [done|].
    intros pre' y Hp Hy. symmetry in Hp. by apply app_eq_nil in Hp as [_ ->].
  - intros (pre & x & -> & Hx & Hno)%IH. exists (c :: pre), x.
    split; [done|]. split; [done|].
    intros [|c' pre'] y Hp Hy; simpl in Hp.
    + by subst y.
    + injection Hp as -> ->. by apply (Hno pre').
Qed.

End RegexFacts.

(** ** The extraction loop and the read loop *)

Module StreamFacts.
Import RegexFacts.

Lemma extract_loop_eq fuel rem acc :
  extract_loop fuel rem acc =
    match exec rem with
    | None => Some acc
    | Some (m1, rem') =>
        match fuel with
        | O => None
        | S fuel' => extract_loop fuel' rem' (acc ++ unescaped m1)
        end
    end.
Proof. by destruct fuel. Qed.

(** With at least [length rem] iterations allowed the loop ends, and its
    result does not depend on the allowance. *)
Lemma extract_loop_result rem :
  exists t, forall fuel acc, (length rem <= fuel)%nat ->
    extract_loop fuel rem acc = Some (acc ++ t).
Proof.
  remember (length rem) as n eqn:Hn. revert rem Hn.
  induction n as [n IH] using lt_wf_ind. intros rem ->.
  destruct (exec rem) as [[m1 rem']|] eqn:He.
  - pose proof (exec_shorter _ _ _ He) as Hlt.
    destruct (IH (length rem') Hlt rem' eq_refl) as [t Ht].
    exists (unescaped m1 ++ t). intros fuel acc Hf.
    rewrite extract_loop_eq, He. destruct fuel as [|fuel]; [lia|].
    rewrite Ht by lia. by rewrite app_assoc.
  - exists []. intros fuel acc _. by rewrite extract_loop_eq, He, app_nil_r.
Qed.

Lemma extract_loop_total rem acc :
  is_Some (extract_loop (length rem) rem acc).
Proof.
  destruct (extract_loop_result rem) as [t Ht]. rewrite Ht by done. eauto.
Qed.

Lemma extract_loop_extract fuel rem acc :
  (length rem <= fuel)%nat ->
  extract_loop fuel rem acc = Some (acc ++ extract rem).
Proof.
  intros Hf. destruct (extract_loop_result rem) as [t Ht].
  unfold extract. rewrite (Ht (length rem) []) by done. simpl. by apply Ht.
Qed.

(** The loop of lines 71-76, one match at a time. *)
Lemma extract_unfold s :
  extract s = match exec s with
              | None => []
              | Some (m1, rem') => unescaped m1 ++ extract rem'
              end.
Proof.
  pose proof (extract_loop_extract (length s) s [] (Nat.le_refl _)) as H.
  rewrite extract_loop_eq in H. simpl in H.
  destruct (exec s) as [[m1 rem']|] eqn:He.
  - pose proof (exec_shorter _ _ _ He) as Hlt.
    destruct (length s) as [|k]; [lia|].
    rewrite extract_loop_extract in H by lia. congruence.
  - congruence.
Qed.

(** The text extracted from a buffer is a prefix of the text extracted
    from any extension of the buffer. *)
Lemma extract_prefix s u : extract s `prefix_of` extract (s ++ u).
Proof.
  remember (length s) as n eqn:Hn. revert s Hn.
  induction n as [n IH] using lt_wf_ind. intros s ->.
  rewrite (extract_unfold s).
  destruct (exec s) as [[m1 rem']|] eqn:He; [|apply prefix_nil].
  rewrite (extract_unfold (s ++ u)), (exec_app _ u _ _ He).
  apply prefix_app, (IH (length rem')); [|done]. by eapply exec_shorter.
Qed.

Lemma decode_app d a b :
  decode d (a ++ b) =
    let '(d1, o1) := decode d a in
    let '(d2, o2) := decode d1 b in (d2, o1 ++ o2).
Proof.
  revert d. induction a as [|x a IH]; intros d; simpl.
  - by destruct (decode d b).
  - destruct (utf8_handler _ _) as [st' cps].
    destruct (serialize _ _) as [seen' out]. rewrite IH.
    destruct (decode _ a) as [d1 o1]. destruct (decode d1 b) as [d2 o2].
    by rewrite app_assoc.
Qed.

Lemma read_all_snoc chunks value :
  read_all (chunks ++ [value]) = read_step (read_all chunks) value.
Proof. unfold read_all. by rewrite fold_left_app. Qed.

(** The loop invariant: the decoder and the buffer are those of the whole
    byte sequence read so far, and [fullText] is what the buffer yields. *)
Lemma read_all_invariant chunks :
  (decoder (read_all chunks), buffer (read_all chunks))
    = decode new_TextDecoder (concat chunks)
  /\ fullText (read_all chunks) = extract (buffer (read_all chunks)).
Proof.
  induction chunks as [|value chunks [Hd Hf]] using rev_ind; [done|].
  rewrite read_all_snoc, concat_app, decode_app. simpl. rewrite app_nil_r.
  rewrite <- Hd. unfold read_step.
  destruct (decode (decoder (read_all chunks)) value) as [d chunk].
  pose proof (extract_prefix (buffer (read_all chunks)) chunk) as Hp.
  rewrite <- Hf in Hp. unfold js_length.
  destruct (Nat.ltb_spec (length (fullText (read_all chunks)))
              (length (extract (buffer (read_all chunks) ++ chunk)))); simpl.
  - done.
  - split; [done|]. by apply prefix_length_eq.
Qed.

Lemma callGeminiApi_stream_spec chunks :
  callGeminiApi_stream chunks
    = extract (snd (decode new_TextDecoder (concat chunks))).
Proof.
  destruct (read_all_invariant chunks) as [Hd Hf].
  unfold callGeminiApi_stream. rewrite Hf, <- Hd. done.
Qed.

End StreamFacts.

(** ** Streams made of text fields *)

Module DocumentFacts.
Import RegexFacts StreamFacts.

Lemma header_eq : header = [34; 116; 101; 120; 116; 34; 58].
Proof. reflexivity. Qed.

Lemma hex_digit_plain h x :
  hex_digit h = Some x -> h <> DQUOTE /\ h <> BACKSLASH.
Proof. intros H. split; intros ->; by cbv in H. Qed.

Lemma hex4_plain a b c d u :
  hex4 a b c d = Some u ->
  (a <> DQUOTE /\ a <> BACKSLASH) /\ (b <> DQUOTE /\ b <> BACKSLASH)
  /\ (c <> DQUOTE /\ c <> BACKSLASH) /\ (d <> DQUOTE /\ d <> BACKSLASH).
Proof.
  unfold hex4.
  destruct (hex_digit a) eqn:Ha; [|done]. destruct (hex_digit b) eqn:Hb; [|done].
  destruct (hex_digit c) eqn:Hc; [|done]. destruct (hex_digit d) eqn:Hd; [|done].
  intros _. repeat split; intros ->; by cbv in Ha, Hb, Hc, Hd.
Qed.

Lemma simple_escape_not_terminator e u :
  simple_escape e = Some u -> is_line_terminator e = false.
Proof.
  unfold simple_escape.
  repeat (match goal with
          | |- context [N.eqb ?a ?b] => destruct (N.eqb_spec a b) as [->|]
          end; [done|]).
  done.
Qed.

(** A JSON string literal is a text the capture group matches. *)
Lemma parse_group1 lit v :
  parse_string_body (lit ++ [DQUOTE]) = Some v -> group1 lit.
Proof.
  remember (length lit) as n eqn:Hn. revert lit v Hn.
  induction n as [n IH] using lt_wf_ind. intros [|c l] v Hn Hp; [constructor|].
  simpl in Hn, Hp.
  destruct (N.eqb_spec c DQUOTE) as [->|Hq].
  { by destruct l. }
  destruct (N.eqb_spec c BACKSLASH) as [->|Hb].
  - destruct l as [|e l]; [by cbv in Hp|]. simpl in Hn, Hp.
    destruct (N.eqb_spec e 117) as [->|He].
    + destruct l as [|h1 [|h2 [|h3 [|h4 l]]]]; simpl in Hn, Hp; try done.
      * destruct (hex4 h1 h2 h3 DQUOTE) eqn:Hh; [|done].
        apply hex4_plain in Hh as (_ & _ & _ & [? _]). done.
      * destruct (hex4 h1 h2 h3 h4) eqn:Hh; [|done].
        apply hex4_plain in Hh as ([??] & [??] & [??] & [??]).
        destruct (parse_string_body (l ++ [DQUOTE])) eqn:Hl; [|done].
        apply group1_escape; [done|]. do 4 (apply group1_plain; [done..|]).
        eapply (IH (length l)); [lia|done..].
    + destruct (simple_escape e) eqn:Hs; [|done].
      destruct (parse_string_body (l ++ [DQUOTE])) eqn:Hl; [|done].
      apply group1_escape; [by eapply simple_escape_not_terminator|].
      eapply (IH (length l)); [lia|done..].
  - destruct (c <? 32); [done|].
    destruct (parse_string_body (l ++ [DQUOTE])) eqn:Hl; [|done].
    apply group1_plain; [done..|]. eapply (IH (length l)); [lia|done..].
Qed.

(** Every JSON string literal is a quoted text. *)
Lemma json_literal lit :
  is_Some (JSON_parse_quoted lit) -> quoted_text lit = true.
Proof.
  intros [v Hv%parse_group1]. apply bool_decide_eq_true.
  by apply match_body_complete.
Qed.

(** The pattern matches a well-formed field from its first character to
    its closing quote and captures its literal. *)
Lemma match_here_field ws lit rest :
  forallb is_space ws = true -> quoted_text lit = true ->
  match_here (text_field ws lit ++ rest) = Some (lit, rest).
Proof.
  intros Hws [_ Hg]%bool_decide_eq_true%match_body_sound. unfold text_field.
  rewrite <- (match_here_complete ws lit rest Hws Hg).
  f_equal. rewrite <- !app_assoc. simpl. by rewrite <- app_assoc.
Qed.

Ltac case_eqb :=
  repeat match goal with
         | |- context [N.eqb ?a ?b] =>
             destruct (N.eqb_spec a b); subst; try done
         end.

(** The key does not straddle the end of a text and a following key. *)
Lemma strip_header_straddle y rest :
  y <> [] -> strip_prefix header y = None ->
  strip_prefix header (y ++ header ++ rest) = None.
Proof.
  rewrite header_eq. intros Hne.
  destruct y as [|c1 [|c2 [|c3 [|c4 [|c5 [|c6 [|c7 y]]]]]]]; [done|..];
    cbn [strip_prefix app]; case_eqb.
Qed.

Lemma key_free_cons c g :
  key_free (c :: g) = true ->
  strip_prefix header (c :: g) = None /\ key_free g = true.
Proof.
  unfold key_free. cbn [occurs].
  by destruct (strip_prefix header (c :: g)).
Qed.

Lemma exec_match s m : match_here s = Some m -> exec s = Some m.
Proof.
  intros H. destruct s as [|c s]; [by cbv in H|]. by rewrite exec_cons, H.
Qed.

(** Scanning a key-free text and then a match finds that match. *)
Lemma exec_skip g rest m :
  key_free g = true -> match_here (header ++ rest) = Some m ->
  exec (g ++ header ++ rest) = Some m.
Proof.
  intros Hg Hm. induction g as [|c g IH]; [by apply exec_match|].
  apply key_free_cons in Hg as [Hc Hg].
  assert (match_here ((c :: g) ++ header ++ rest) = None) as Hn.
  { unfold match_here. by rewrite strip_header_straddle. }
  change ((c :: g) ++ header ++ rest) with (c :: (g ++ header ++ rest)) in *.
  rewrite exec_cons, Hn. auto.
Qed.

Lemma exec_key_free g : key_free g = true -> exec g = None.
Proof.
  induction g as [|c g IH]; [done|].
  intros [Hc Hg]%key_free_cons. rewrite exec_cons.
  unfold match_here. rewrite Hc. auto.
Qed.

Lemma render_cons f fields :
  render (f :: fields)
    = header ++ spaces f ++ DQUOTE :: literal f
        ++ DQUOTE :: gap f ++ render fields.
Proof.
  simpl. unfold text_field. rewrite <- !app_assoc. simpl.
  by rewrite <- !app_assoc.
Qed.

Lemma extract_render lead fields :
  key_free lead = true -> forallb field_ok fields = true ->
  extract (lead ++ render fields) = text_values fields.
Proof.
  revert lead. induction fields as [|f fields IH]; intros lead Hlead Hok.
  - simpl. rewrite app_nil_r, extract_unfold. by rewrite exec_key_free.
  - simpl in Hok. apply andb_prop in Hok as [Hf Hok].
    unfold field_ok in Hf.
    apply andb_prop in Hf as [[Hws Hlit%bool_decide_eq_true]%andb_prop Hgap].
    apply match_body_sound in Hlit as [_ Hlit].
    pose proof (match_here_complete _ _ (gap f ++ render fields) Hws Hlit)
      as Hm.
    rewrite render_cons, extract_unfold, (exec_skip _ _ _ Hlead Hm).
    by rewrite IH.
Qed.

Lemma extract_document lead fields :
  well_formed lead fields = true ->
  extract (document lead fields) = text_values fields.
Proof.
  intros [??]%andb_prop. by apply extract_render.
Qed.

End DocumentFacts.

(** ** Fan-out, merge and de-duplication *)

Module BulkFacts.

Section Generic.
Context {T : Type}.
Implicit Types tasks : list (task T).

Lemma Promise_all_catch_null tasks :
  Promise_all (map catch_null tasks) = Fulfilled (map or_null tasks).
Proof.
  induction tasks as [|[a|e] tasks IH]; simpl; [done|by rewrite IH..].
Qed.

Lemma filter_not_null_or_null tasks :
  filter_not_null (map or_null tasks) = successes tasks.
Proof.
  unfold filter_not_null.
  induction tasks as [|[a|e] tasks IH]; simpl; [done| |done].
  by rewrite <- IH.
Qed.

Lemma executeBulkParallel_successes tasks c u :
  executeBulkParallel tasks c u = Fulfilled (successes tasks).
Proof.
  unfold executeBulkParallel.
  by rewrite Promise_all_catch_null, filter_not_null_or_null.
Qed.

Lemma successes_app tasks1 tasks2 :
  successes (tasks1 ++ tasks2) = successes tasks1 ++ successes tasks2.
Proof.
  induction tasks1 as [|[a|e] tasks1 IH]; simpl; [done| |done].
  by rewrite IH.
Qed.

Lemma successes_rejected (errs : list error) :
  successes (map (@Rejected T) errs) = [].
Proof. induction errs; simpl; done. Qed.

Lemma in_flight_after_invokes running (l : list nat) :
  in_flight_after running (map Invoke l) = running ++ l.
Proof.
  revert running. induction l as [|i l IH]; intros running; simpl.
  - by rewrite app_nil_r.
  - by rewrite IH, <- app_assoc.
Qed.

Lemma in_flight_launch tasks :
  in_flight (launch tasks) = seq 0 (length tasks).
Proof. unfold in_flight, launch. by rewrite in_flight_after_invokes. Qed.

Lemma in_flight_after_settles running (o : list nat) :
  (length (in_flight_after running (map Settle o)) <= length running)%nat.
Proof.
  revert running. induction o as [|i o IH]; intros running; simpl; [done|].
  etrans; [apply IH|]. apply List.filter_length_le.
Qed.

Lemma in_flight_after_app running tr1 tr2 :
  in_flight_after running (tr1 ++ tr2)
    = in_flight_after (in_flight_after running tr1) tr2.
Proof.
  revert running. induction tr1 as [|[i|i] tr1 IH]; intros running; simpl; auto.
Qed.

Lemma schedule_bound tasks c order :
  respects_ceiling (length tasks) (schedule tasks c order).
Proof.
  intros k. unfold schedule, in_flight, launch.
  rewrite take_app, in_flight_after_app, <- !fmap_take.
  etrans; [apply in_flight_after_settles|].
  rewrite in_flight_after_invokes. simpl.
  rewrite length_take, length_seq. lia.
Qed.

End Generic.

Section DedupFacts.
Context {Item : Type} (question : Item -> option jsstring).
Implicit Types data : list Item.

Lemma filter_unseen_indexed seen data :
  filter_unseen question seen data
    = omap id
        (imap (fun i q =>
                 if bool_decide (question q ∈ seen
                                 \/ question q ∈ map question (take i data))
                 then None else Some q) data).
Proof.
  revert seen. induction data as [|q data IH]; intros seen; [done|].
  cbn [filter_unseen imap omap take map].
  rewrite IH.
  assert (Hext : imap (fun i q0 =>
             if bool_decide (question q0 ∈ ({[question q]} ∪ seen)
                             \/ question q0 ∈ map question (take i data))
             then None else Some q0) data
           = imap ((fun i q0 =>
             if bool_decide (question q0 ∈ seen
                             \/ question q0 ∈ map question (take i (q :: data)))
             then None else Some q0) ∘ S) data).
  { apply imap_ext. intros i x _. simpl.
    apply (f_equal (fun b : bool => if b then None else Some x)).
    apply bool_decide_ext. rewrite elem_of_union, elem_of_singleton.
    rewrite elem_of_cons. naive_solver. }
  rewrite Hext.
  destruct (bool_decide (question q ∈ seen)) eqn:Hq; simpl.
  - apply bool_decide_eq_true in Hq.
    rewrite (bool_decide_eq_true_2 _); [done|by left].
  - apply bool_decide_eq_false in Hq.
    rewrite (bool_decide_eq_false_2 _); [done|].
    intros [?|Hin]; [done|]. by apply elem_of_nil in Hin.
Qed.

(** The filter of lines 588-593 keeps the first occurrence of each key. *)
Lemma filter_unseen_first_occurrences data :
  filter_unseen question ∅ data = first_occurrences question data.
Proof.
  rewrite filter_unseen_indexed. unfold first_occurrences. f_equal.
  apply imap_ext. intros i x _.
  apply (f_equal (fun b : bool => if b then None else Some x)).
  apply bool_decide_ext. set_solver.
Qed.

Lemma truncate_take n data : truncate n data = take n data.
Proof.
  unfold truncate. destruct (Nat.ltb_spec n (length data)); [done|].
  by rewrite take_ge.
Qed.

Lemma successes_merged {A} (tasks : list (task (list A))) :
  concat (successes tasks) = merged tasks.
Proof.
  unfold merged. induction tasks as [|[a|e] tasks IH]; simpl; [done| |done].
  by rewrite IH.
Qed.

(** On elements none of which is [null] the filter of lines 588-593 is
    the filter on items. *)
Lemma filter_elements_items seen data :
  filter_elements question seen (map Some data)
    = Normal (filter_unseen question seen data).
Proof.
  revert seen. induction data as [|q data IH]; intros seen; [done|].
  cbn [map filter_elements filter_unseen]. by rewrite IH.
Qed.

(** It throws as soon as one element is [null]. *)
Lemma filter_elements_null seen (elements : list (option Item)) :
  items_of elements = None ->
  filter_elements question seen elements = Throw TypeError.
Proof.
  revert seen. induction elements as [|[q|] elements IH]; intros seen H;
    [done| |done].
  cbn [items_of] in H. cbn [filter_elements].
  destruct (items_of elements); [done|]. by rewrite IH.
Qed.

Lemma items_of_Some (elements : list (option Item)) data :
  items_of elements = Some data <-> elements = map Some data.
Proof.
  revert data. induction elements as [|[q|] elements IH]; intros data.
  - simpl. split; [by intros [= <-]|by destruct data].
  - cbn [items_of]. destruct (items_of elements) as [l|] eqn:Hl; simpl.
    + split.
      * intros [= <-]. simpl. f_equal. by apply IH.
      * destruct data as [|q' data]; [done|]. intros [= -> H].
        apply IH in H. congruence.
    + split; [done|]. destruct data as [|q' data]; [done|]. intros [= -> H].
      apply IH in H. done.
  - simpl. split; [done|]. by destruct data.
Qed.

Lemma items_of_None (elements : list (option Item)) :
  items_of elements = None <-> None ∈ elements.
Proof.
  induction elements as [|[q|] elements IH]; cbn [items_of].
  - split; [done|]. by intros ?%elem_of_nil.
  - rewrite elem_of_cons, <- IH.
    destruct (items_of elements); simpl; naive_solver.
  - rewrite elem_of_cons. naive_solver.
Qed.

(** The bulk branch: it rejects with the [TypeError] of line 590 when an
    element of a reply is [null], and otherwise fulfils with the first
    [n] of the first occurrences. *)
Lemma bulk_data_spec n u (tasks : list (task (list (option Item)))) :
  bulk_data question n u tasks
    = match items_of (merged tasks) with
      | Some data => Fulfilled (take n (first_occurrences question data))
      | None => Rejected TypeError
      end.
Proof.
  unfold bulk_data. rewrite executeBulkParallel_successes, successes_merged.
  destruct (items_of (merged tasks)) as [data|] eqn:H.
  - apply items_of_Some in H. rewrite H, filter_elements_items.
    by rewrite truncate_take, filter_unseen_first_occurrences.
  - by rewrite filter_elements_null.
Qed.

Lemma merged_app {A} (tasks1 tasks2 : list (task (list A))) :
  merged (tasks1 ++ tasks2) = merged tasks1 ++ merged tasks2.
Proof. unfold merged. by rewrite map_app, concat_app. Qed.

Lemma merged_rejected {A} (errs : list error) :
  merged (map (@Rejected (list A)) errs) = [].
Proof. unfold merged. induction errs; simpl; done. Qed.


End DedupFacts.

End BulkFacts.

(** ** The decoder and the encodings of a text *)

Module UnicodeFacts.
Import RegexFacts StreamFacts DocumentFacts.

Ltac divlia := zify; Z.to_euclidean_division_equations; lia.

Lemma to_N_byte_of n : n < 256 -> Byte.to_N (byte_of n) = n.
Proof.
  intros H. unfold byte_of. destruct (Byte.of_N n) as [b|] eqn:E.
  - simpl. by apply Byte.to_of_N.
  - apply Byte.of_N_None_iff in E. lia.
Qed.

Lemma land_3F b : N.land b 0x3F = b mod 64.
Proof. change 0x3F with (N.ones 6). by rewrite N.land_ones. Qed.
Lemma land_1F b : N.land b 0x1F = b mod 32.
Proof. change 0x1F with (N.ones 5). by rewrite N.land_ones. Qed.
Lemma land_F b : N.land b 0xF = b mod 16.
Proof. change 0xF with (N.ones 4). by rewrite N.land_ones. Qed.
Lemma land_7 b : N.land b 0x7 = b mod 8.
Proof. change 0x7 with (N.ones 3). by rewrite N.land_ones. Qed.

Lemma lor_shiftl_6 c r : r < 64 -> N.lor (N.shiftl c 6) r = c * 64 + r.
Proof.
  intros Hr. rewrite N.shiftl_mul_pow2.
  change (2 ^ 6) with 64.
  assert (N.land (c * 64) r = 0) as Hl.
  { apply N.bits_inj. intros n. rewrite N.land_spec, N.bits_0.
    destruct (N.lt_ge_cases n 6) as [Hn|Hn].
    - change 64 with (2 ^ 6). by rewrite N.mul_pow2_bits_low.
    - rewrite (N.bits_above_log2 r n), andb_false_r; [done|].
      destruct (N.eq_dec r 0) as [->|Hr0]; [change (N.log2 0) with 0; lia|].
      apply N.log2_lt_pow2; [lia|].
      eapply N.lt_le_trans; [exact Hr|]. change 64 with (2 ^ 6).
      apply N.pow_le_mono_r; lia. }
  rewrite <- N.lxor_lor by done. symmetry. by apply N.add_nocarry_lxor.
Qed.

(** The continuation step of the decoder on a byte in range. *)
Lemma utf8_handler_continue st b :
  bytes_needed st <> 0 ->
  lower_boundary st <= b <= upper_boundary st -> b < 256 ->
  utf8_handler st b
  = if bytes_seen st + 1 =? bytes_needed st
    then (utf8_init, [code_point st * 64 + b mod 64])
    else ({| code_point := code_point st * 64 + b mod 64;
             bytes_seen := bytes_seen st + 1;
             bytes_needed := bytes_needed st;
             lower_boundary := 0x80; upper_boundary := 0xBF |}, []).
Proof.
  intros Hn [Hlo Hhi] Hb. unfold utf8_handler, in_range.
  rewrite (proj2 (N.eqb_neq _ _) Hn).
  rewrite (proj2 (N.leb_le _ _) Hlo), (proj2 (N.leb_le _ _) Hhi).
  cbn [andb negb]. rewrite land_3F, lor_shiftl_6 by divlia. done.
Qed.

Ltac decide_cond :=
  repeat first
    [ match goal with
      | |- context [?a <=? ?b] =>
          first [ rewrite (proj2 (N.leb_le a b)) by divlia
                | rewrite (proj2 (N.leb_gt a b)) by divlia ]
      | |- context [?a <? ?b] =>
          first [ rewrite (proj2 (N.ltb_lt a b)) by divlia
                | rewrite (proj2 (N.ltb_ge a b)) by divlia ]
      | |- context [?a =? ?b] =>
          first [ rewrite (proj2 (N.eqb_eq a b)) by divlia
                | rewrite (proj2 (N.eqb_neq a b)) by divlia ]
      end
    | progress cbn [andb orb negb] ].

Lemma scalar_value_cases cp :
  scalar_value cp = true -> cp < 0xD800 \/ (0xDFFF < cp /\ cp < 0x110000).
Proof.
  unfold scalar_value. intros [H|[H1 H2]%andb_prop]%orb_prop.
  - left. by apply N.ltb_lt.
  - right. split; by apply N.ltb_lt.
Qed.

(** The handler on the bytes of a character, one by one. *)
Lemma utf8_lead_1 cp : cp < 0x80 -> utf8_lead cp = (utf8_init, [cp]).
Proof. intros H. unfold utf8_lead. by decide_cond. Qed.

Lemma utf8_lead_2 cp :
  0x80 <= cp -> cp < 0x800 ->
  utf8_lead (0xC0 + cp / 0x40)
  = ({| code_point := cp / 0x40; bytes_seen := 0; bytes_needed := 1;
        lower_boundary := 0x80; upper_boundary := 0xBF |}, []).
Proof.
  intros H1 H2. unfold utf8_lead, in_range. decide_cond.
  rewrite land_1F. do 2 f_equal. f_equal. divlia.
Qed.

Lemma utf8_lead_3 cp :
  0x800 <= cp -> cp < 0x10000 ->
  utf8_lead (0xE0 + cp / 0x1000)
  = ({| code_point := cp / 0x1000; bytes_seen := 0; bytes_needed := 2;
        lower_boundary := if 0xE0 + cp / 0x1000 =? 0xE0 then 0xA0 else 0x80;
        upper_boundary := if 0xE0 + cp / 0x1000 =? 0xED then 0x9F else 0xBF |},
     []).
Proof.
  intros H1 H2. unfold utf8_lead, in_range. decide_cond.
  rewrite land_F. do 2 f_equal. f_equal. divlia.
Qed.

Lemma utf8_lead_4 cp :
  0x10000 <= cp -> cp < 0x110000 ->
  utf8_lead (0xF0 + cp / 0x40000)
  = ({| code_point := cp / 0x40000; bytes_seen := 0; bytes_needed := 3;
        lower_boundary := if 0xF0 + cp / 0x40000 =? 0xF0 then 0x90 else 0x80;
        upper_boundary := if 0xF0 + cp / 0x40000 =? 0xF4 then 0x8F else 0xBF |},
     []).
Proof.
  intros H1 H2. unfold utf8_lead, in_range. decide_cond.
  rewrite land_7. do 2 f_equal. f_equal. divlia.
Qed.

Lemma utf16_utf16_of cp : utf16 cp = utf16_of cp.
Proof.
  unfold utf16, utf16_of. destruct (cp <? 0x10000); [done|].
  cbv zeta. rewrite N.shiftr_div_pow2.
  change 0x3FF with (N.ones 10). by rewrite N.land_ones.
Qed.

Lemma utf8_handler_init b : utf8_handler utf8_init b = utf8_lead b.
Proof. done. Qed.

(** The decoder on the bytes of one character, from its initial state:
    it emits that character and is in its initial state again. *)
Lemma decode_char seen cp :
  scalar_value cp = true ->
  decode {| utf8 := utf8_init; bom_seen := seen |} (map byte_of (utf8_of cp))
  = ({| utf8 := utf8_init; bom_seen := true |},
     if negb seen && (cp =? 0xFEFF) then [] else utf16_of cp).
Proof.
  intros Hs%scalar_value_cases. unfold utf8_of.
  destruct (N.ltb_spec cp 0x80) as [H1|H1].
  { cbn [map decode utf8 bom_seen].
    rewrite to_N_byte_of, utf8_handler_init, utf8_lead_1 by divlia.
    cbn [serialize]. rewrite utf16_utf16_of, ?app_nil_r. by decide_cond. }
  destruct (N.ltb_spec cp 0x800) as [H2|H2].
  { cbn [map decode utf8 bom_seen].
    rewrite !to_N_byte_of, utf8_handler_init, utf8_lead_2 by divlia.
    cbn [serialize utf8 bom_seen].
    rewrite utf8_handler_continue by (cbn; divlia).
    cbn [bytes_seen bytes_needed code_point]. decide_cond.
    replace (cp / 0x40 * 64 + (0x80 + cp mod 0x40) mod 64) with cp by divlia.
    cbn [serialize]. rewrite utf16_utf16_of, ?app_nil_r. by decide_cond. }
  destruct (N.ltb_spec cp 0x10000) as [H3|H3].
  { cbn [map decode utf8 bom_seen].
    rewrite !to_N_byte_of, utf8_handler_init, utf8_lead_3 by divlia.
    cbn [serialize utf8 bom_seen].
    rewrite utf8_handler_continue; cycle 1.
    { cbn. lia. }
    { cbn [lower_boundary upper_boundary].
      destruct (N.eqb_spec (0xE0 + cp / 0x1000) 0xE0);
        destruct (N.eqb_spec (0xE0 + cp / 0x1000) 0xED); divlia. }
    { divlia. }
    cbn [bytes_seen bytes_needed code_point]. decide_cond.
    cbn [serialize utf8 bom_seen].
    rewrite utf8_handler_continue by (cbn; divlia).
    cbn [bytes_seen bytes_needed code_point]. decide_cond.
    replace ((cp / 0x1000 * 64 + (0x80 + cp / 0x40 mod 0x40) mod 64) * 64
             + (0x80 + cp mod 0x40) mod 64) with cp by divlia.
    cbn [serialize]. rewrite utf16_utf16_of, ?app_nil_r. by decide_cond. }
  cbn [map decode utf8 bom_seen].
  rewrite !to_N_byte_of, utf8_handler_init, utf8_lead_4 by divlia.
  cbn [serialize utf8 bom_seen].
  rewrite utf8_handler_continue; cycle 1.
  { cbn. lia. }
  { cbn [lower_boundary upper_boundary].
    destruct (N.eqb_spec (0xF0 + cp / 0x40000) 0xF0);
      destruct (N.eqb_spec (0xF0 + cp / 0x40000) 0xF4); divlia. }
  { divlia. }
  cbn [bytes_seen bytes_needed code_point]. decide_cond.
  cbn [serialize utf8 bom_seen].
  rewrite utf8_handler_continue by (cbn; divlia).
  cbn [bytes_seen bytes_needed code_point]. decide_cond.
  cbn [serialize utf8 bom_seen].
  rewrite utf8_handler_continue by (cbn; divlia).
  cbn [bytes_seen bytes_needed code_point]. decide_cond.
  replace (((cp / 0x40000 * 64 + (0x80 + cp / 0x1000 mod 0x40) mod 64) * 64
            + (0x80 + cp / 0x40 mod 0x40) mod 64) * 64
           + (0x80 + cp mod 0x40) mod 64) with cp by divlia.
  cbn [serialize]. rewrite utf16_utf16_of, ?app_nil_r. by decide_cond.
Qed.

(** The decoder on the bytes of a text, after its first character. *)
Lemma decode_text_seen text :
  forallb scalar_value text = true ->
  decode {| utf8 := utf8_init; bom_seen := true |} (utf8_bytes text)
  = ({| utf8 := utf8_init; bom_seen := true |}, code_units text).
Proof.
  induction text as [|cp text IH]; [done|].
  cbn [forallb]. intros [Hcp Ht]%andb_prop.
  cbn [utf8_bytes code_units flat_map].
  rewrite decode_app, decode_char by done. fold (utf8_bytes text).
  rewrite IH by done. done.
Qed.

(** The decoder on the bytes of a whole text: the string that holds the
    text, a byte-order mark at its start being dropped. *)
Lemma decode_text text :
  forallb scalar_value text = true ->
  snd (decode new_TextDecoder (utf8_bytes text))
  = code_units (without_bom text).
Proof.
  destruct text as [|cp text]; [done|].
  cbn [forallb]. intros [Hcp Ht]%andb_prop.
  cbn [utf8_bytes flat_map]. unfold new_TextDecoder.
  rewrite decode_app, decode_char by done. fold (utf8_bytes text).
  rewrite decode_text_seen by done. cbn [negb andb snd without_bom].
  destruct (cp =? 0xFEFF); done.
Qed.

Lemma code_units_app a b : code_units (a ++ b) = code_units a ++ code_units b.
Proof. apply flat_map_app. Qed.

Lemma plain_scalar_units s :
  forallb plain_scalar s = true -> Forall plain_unit (code_units s).
Proof.
  induction s as [|cp s IH]; [constructor|].
  cbn [forallb]. intros [Hcp Hs]%andb_prop.
  cbn [code_units flat_map]. apply Forall_app. split; [|by apply IH].
  unfold plain_scalar in Hcp.
  apply andb_prop in Hcp as [[[Hv Hlo]%andb_prop Hq]%andb_prop Hb].
  apply N.leb_le in Hlo. apply negb_true_iff, N.eqb_neq in Hq, Hb.
  unfold utf16_of, plain_unit, DQUOTE, BACKSLASH in *.
  destruct (N.ltb_spec cp 0x10000).
  - repeat constructor; done.
  - repeat constructor; divlia.
Qed.

Lemma parse_plain l :
  Forall plain_unit l -> parse_string_body (l ++ [DQUOTE]) = Some l.
Proof.
  induction 1 as [|c l (Hlo & Hq & Hb) _ IH]; [done|].
  cbn [app parse_string_body].
  rewrite (proj2 (N.eqb_neq _ _) Hq), (proj2 (N.eqb_neq _ _) Hb).
  rewrite (proj2 (N.ltb_ge _ _) Hlo), IH. done.
Qed.

(** The text read from the stream of one field holding [s]. *)
Lemma extract_one_field s :
  forallb plain_scalar s = true ->
  extract (code_units (one_field s)) = code_units s.
Proof.
  intros Hs%plain_scalar_units. pose proof (parse_plain _ Hs) as Hp.
  pose (f := {| spaces := []; literal := code_units s; gap := codes "}]" |}).
  assert (code_units (one_field s) = document (codes "[{") [f]) as ->.
  { unfold one_field, document.
    rewrite !code_units_app. change (DQUOTE :: s ++ DQUOTE :: codes "}]")
      with ([DQUOTE] ++ s ++ [DQUOTE] ++ codes "}]").
    rewrite !code_units_app. cbn [render]. unfold text_field, f.
    cbn [spaces literal gap].
    assert (code_units (codes "[{") = codes "[{") as -> by reflexivity.
    assert (code_units header = header) as -> by reflexivity.
    assert (code_units [DQUOTE] = [DQUOTE]) as -> by reflexivity.
    assert (code_units (codes "}]") = codes "}]") as -> by reflexivity.
    rewrite app_nil_r. cbn [app]. rewrite <- !app_assoc. cbn [app].
    by rewrite <- !app_assoc. }
  rewrite extract_document.
  - unfold text_values, field_value, unescaped, JSON_parse_quoted.
    cbn [map concat literal f]. by rewrite Hp, app_nil_r.
  - unfold well_formed. cbn [forallb]. unfold field_ok.
    cbn [spaces literal gap f forallb].
    rewrite json_literal; [done|]. unfold JSON_parse_quoted. by rewrite Hp.
Qed.

End UnicodeFacts.

(** * The claims *)

Import RegexFacts StreamFacts DocumentFacts BulkFacts UnicodeFacts.

(** ** Stream decoder *)

(** C1 as stated fails: the buffer of the stream [spaced_chunks] is a JSON
    array of one object whose [text] field holds the string [a], yet the
    streaming path returns the empty text, because the pattern of line 68
    wants the colon right after the quoted key. *)
Lemma C1_space_before_colon :
  snd (decode new_TextDecoder (concat spaced_chunks)) = spaced_buffer
  /\ callGeminiApi_stream spaced_chunks = []
  /\ callGeminiApi_stream spaced_chunks <> codes "a".
Proof. by vm_compute. Qed.

(** C1, amended.  For every stream, however it is cut into chunks, whose
    decoded text consists of [text] fields each written as the quoted key,
    the colon right after it, optional white space and a quoted literal,
    separated by text in which the quoted key followed by a colon does not
    occur, the text returned at the end of the stream is the concatenation,
    in document order, of the values of the fields, each literal being
    unescaped as a JSON string and a literal that is not a JSON string
    being skipped. *)
Theorem C1_text_fields_in_document_order
    (chunks : list (list byte)) (lead : jsstring) (fields : list field) :
  well_formed lead fields = true ->
  snd (decode new_TextDecoder (concat chunks)) = document lead fields ->
  callGeminiApi_stream chunks = text_values fields.
Proof.
  intros Hwf Hdoc. rewrite callGeminiApi_stream_spec, Hdoc.
  by apply extract_document.
Qed.

(** C1, an instance: three objects in three chunks, the second literal
    not a JSON string. *)
Lemma C1_text_fields_witness :
  well_formed (codes "[{") three_fields = true
  /\ snd (decode new_TextDecoder (concat three_field_chunks))
       = document (codes "[{") three_fields
  /\ callGeminiApi_stream three_field_chunks = text_values three_fields.
Proof.
  split; [reflexivity|]. split; [reflexivity|].
  apply (C1_text_fields_in_document_order
           three_field_chunks (codes "[{") three_fields); reflexivity.
Defined.

(** The text of the instance of C1: the second field adds nothing. *)
Lemma three_fields_text :
  callGeminiApi_stream three_field_chunks = codes "Hello" ++ [0xE9; 33]
  /\ map field_value three_fields = [codes "Hello"; []; [0xE9; 33]].
Proof. split; reflexivity. Qed.

(** C5.  The texts handed to successive [onChunk] calls get strictly longer
    (so their lengths never decrease), and reading one more chunk makes a
    call exactly when the text extracted from the new buffer is strictly
    longer than the current [fullText]; the call then receives that whole
    text, which becomes [fullText]. *)
Theorem C5_onChunk_lengths_increase (chunks : list (list byte)) :
  StronglySorted shorter (onChunk_calls chunks)
  /\ forall value,
       let st := read_all chunks in
       let st' := read_all (chunks ++ [value]) in
       let candidate := extract (buffer st') in
       if (js_length (fullText st) <? js_length candidate)%nat
       then calls st' = calls st ++ [candidate] /\ fullText st' = candidate
       else calls st' = calls st /\ fullText st' = fullText st.
Proof.
  split.
  - unfold onChunk_calls.
    cut (StronglySorted shorter (calls (read_all chunks))
         /\ Forall (fun t => (js_length t
                              <= js_length (fullText (read_all chunks)))%nat)
              (calls (read_all chunks))); [by intros []|].
    induction chunks as [|value chunks [Hs Hb]] using rev_ind.
    { split; constructor. }
    rewrite read_all_snoc. unfold read_step.
    destruct (decode (decoder (read_all chunks)) value) as [d chunk].
    destruct (Nat.ltb_spec (js_length (fullText (read_all chunks)))
                (js_length (extract (buffer (read_all chunks) ++ chunk))))
      as [Hlt|Hge]; simpl; [|done].
    split.
    + apply StronglySorted_app_2; [|done|repeat constructor].
      intros a b Ha ->%list_elem_of_singleton.
      rewrite Forall_forall in Hb. specialize (Hb a Ha). unfold shorter. lia.
    + apply Forall_app. split; [|by repeat constructor].
      eapply Forall_impl; [exact Hb|]. simpl. intros; lia.
  - intros value. simpl. rewrite read_all_snoc. unfold read_step.
    destruct (decode (decoder (read_all chunks)) value) as [d chunk].
    destruct (js_length (fullText (read_all chunks))
              <? js_length (extract (buffer (read_all chunks) ++ chunk)))%nat
      eqn:E; simpl; by rewrite E.
Qed.

(** C6 as stated fails: for the two chunks of the scenario as the
    specification writes them the streaming path does not return [Hello],
    the first chunk already ends the string after [Hel]. *)
Lemma C6_scenario_as_written :
  callGeminiApi_stream scenario_chunks <> codes "Hello".
Proof. by vm_compute. Qed.

(** C6, amended.  For the stream cut inside the string, the first chunk
    ending with [Hel] and no quote, the final text is [Hello]; for the two
    chunks as written, the first ending with a quote after [Hel], it is
    [Hel]. *)
Theorem C6_split_mid_string :
  callGeminiApi_stream mid_string_chunks = codes "Hello"
  /\ callGeminiApi_stream scenario_chunks = codes "Hel".
Proof. split; reflexivity. Qed.

(** C7.  Two deliveries of the same bytes, cut into chunks at different
    places (also inside a multi-byte character), return the same final
    text, the one extracted from the bytes decoded in one piece: the
    decoder keeps the bytes of an unfinished character until the next
    chunk.  No character is corrupted or dropped: when the bytes are the
    UTF-8 encoding of a text, the buffer the scan reads is that text,
    whatever the cuts, and when the text is the array of one object whose
    [text] field holds the characters [s], the final text is [s]. *)
Theorem C7_split_characters_arrive (chunks1 chunks2 : list (list byte)) :
  concat chunks1 = concat chunks2 ->
  callGeminiApi_stream chunks1 = callGeminiApi_stream chunks2
  /\ callGeminiApi_stream chunks1
     = extract (snd (decode new_TextDecoder (concat chunks2)))
  /\ (forall text,
        forallb scalar_value text = true ->
        concat chunks2 = utf8_bytes text ->
        buffer (read_all chunks1) = code_units (without_bom text))
  /\ (forall s,
        forallb plain_scalar s = true ->
        concat chunks2 = utf8_bytes (one_field s) ->
        callGeminiApi_stream chunks1 = code_units s).
Proof.
  intros H.
  assert (buffer (read_all chunks1)
          = snd (decode new_TextDecoder (concat chunks2))) as Hb.
  { destruct (read_all_invariant chunks1) as [Hd _]. by rewrite <- H, <- Hd. }
  split; [by rewrite !callGeminiApi_stream_spec, H|].
  split; [by rewrite callGeminiApi_stream_spec, H|].
  split.
  - intros text Ht Hc. by rewrite Hb, Hc, decode_text.
  - intros s Hs Hc. rewrite callGeminiApi_stream_spec, H, Hc.
    assert (forallb scalar_value (one_field s) = true) as Hv.
    { unfold one_field. rewrite !forallb_app. cbn [forallb].
      rewrite forallb_app. cbn [forallb].
      assert (forallb scalar_value s = true) as ->.
      { apply forallb_forall. intros c Hin.
        rewrite forallb_forall in Hs. specialize (Hs c Hin).
        unfold plain_scalar in Hs.
        by apply andb_prop in Hs as [[[? _]%andb_prop _]%andb_prop _]. }
      reflexivity. }
    rewrite decode_text by done.
    assert (without_bom (one_field s) = one_field s) as -> by reflexivity.
    by apply extract_one_field.
Qed.

(** C7, an instance: a two-byte and a four-byte character, each cut
    between its bytes; the second arrives as its surrogate pair. *)
Lemma C7_split_characters_witness :
  concat split_emoji_chunks = concat whole_emoji_chunks
  /\ forallb scalar_value (one_field [0xE9; 0x1F600]) = true
  /\ forallb plain_scalar [0xE9; 0x1F600] = true
  /\ concat whole_emoji_chunks = utf8_bytes (one_field [0xE9; 0x1F600])
  /\ callGeminiApi_stream split_emoji_chunks
     = callGeminiApi_stream whole_emoji_chunks
  /\ buffer (read_all split_emoji_chunks)
     = code_units (without_bom (one_field [0xE9; 0x1F600]))
  /\ callGeminiApi_stream split_emoji_chunks = [0xE9; 0xD83D; 0xDE00].
Proof.
  assert (concat split_emoji_chunks = concat whole_emoji_chunks) as H
    by reflexivity.
  assert (forallb scalar_value (one_field [0xE9; 0x1F600]) = true) as Hv
    by reflexivity.
  assert (forallb plain_scalar [0xE9; 0x1F600] = true) as Hp by reflexivity.
  assert (concat whole_emoji_chunks = utf8_bytes (one_field [0xE9; 0x1F600]))
    as Hc by reflexivity.
  destruct (C7_split_characters_arrive split_emoji_chunks whole_emoji_chunks H)
    as (H1 & _ & H3 & H4).
  split; [exact H|]. split; [exact Hv|]. split; [exact Hp|].
  split; [exact Hc|]. split; [exact H1|].
  split; [exact (H3 _ Hv Hc)|]. exact (H4 _ Hp Hc).
Defined.

(** A two-byte character (U+00E9) cut between its bytes reaches the
    output whole, in one [onChunk] call. *)
Lemma split_char_decoded :
  callGeminiApi_stream split_char_chunks = [0xE9]
  /\ onChunk_calls split_char_chunks = [[0xE9]].
Proof. split; reflexivity. Qed.

(** The non-streaming extraction never throws: a failing property access
    is caught and gives the empty string. *)
Lemma callGeminiApi_json_returns (data : jsval) :
  exists v, callGeminiApi_json data = Normal v.
Proof. unfold callGeminiApi_json. destruct (first_candidate_text data); eauto. Qed.

(** C8, at the failing input.  For a reply whose first part is an object
    without a [text] property, the non-streaming path returns [undefined],
    not the empty string: no property access throws, so the [catch] of line
    97 is not reached. *)
Theorem C8_missing_text_gives_undefined :
  callGeminiApi no_text_response false = Normal JUndefined
  /\ callGeminiApi no_text_response false <> Normal (JStr []).
Proof. split; [reflexivity|discriminate]. Qed.

(** ** Batch orchestrator *)

(** C2 as stated fails: a bulk run does not always return a sequence.
    With the replies [null_batches], the first of which has a [null]
    element, the callback of line 590 throws on that element and the bulk
    branch rejects with the [TypeError]; no item sequence is returned. *)
Lemma C2_null_element_rejects :
  (30 < effectiveCount 31)%nat
  /\ merged (map null_batches (seq 0 (batches 31)))
     = [Some (Some (codes "a"), 0%nat); None; Some (Some (codes "b"), 1%nat)]
  /\ bulk_generation item_question 31 STUDENT null_batches
     = Rejected TypeError
  /\ forall data,
       bulk_generation item_question 31 STUDENT null_batches
       <> Fulfilled data.
Proof.
  assert (bulk_generation item_question 31 STUDENT null_batches
          = Rejected TypeError) as H.
  { unfold bulk_generation. rewrite bulk_data_spec. reflexivity. }
  split; [vm_compute; lia|]. split; [reflexivity|]. split; [exact H|].
  intros data. by rewrite H.
Qed.

(** C2, amended.  In a bulk run (more than 30 questions asked for) in
    which no element of a surviving reply is [null], the items returned
    are the first [targetQuestions] items of the merged sub-batch results
    with every item dropped whose question text an earlier item has, in
    merged order; so there are at most [targetQuestions] of them, and when
    fewer items survive they are all returned, without error.  A run in
    which an element of a surviving reply is [null] returns nothing: it
    rejects with a [TypeError]. *)
Theorem C2_bulk_dedup_then_truncate {Item : Type}
    (question : Item -> option jsstring) (targetQuestions : nat)
    (usageType : usage) (run : nat -> task (list (option Item))) :
  (30 < effectiveCount targetQuestions)%nat ->
  let tasks := map run (seq 0 (batches targetQuestions)) in
  match items_of (merged tasks) with
  | None =>
      bulk_generation question targetQuestions usageType run
      = Rejected TypeError
  | Some items =>
      let unique := first_occurrences question items in
      exists data,
        bulk_generation question targetQuestions usageType run
        = Fulfilled data
        /\ data = take targetQuestions unique
        /\ (length data <= targetQuestions)%nat
        /\ if (length unique <=? targetQuestions)%nat
           then data = unique else length data = targetQuestions
  end.
Proof.
  intros Hbulk tasks.
  assert (effectiveCount targetQuestions = targetQuestions) as Hn.
  { unfold effectiveCount in *. lia. }
  unfold bulk_generation. rewrite bulk_data_spec, Hn. fold tasks.
  destruct (items_of (merged tasks)) as [items|]; [|done].
  cbv zeta. set (unique := first_occurrences question items).
  exists (take targetQuestions unique).
  split; [done|]. split; [done|]. split.
  - rewrite length_take. lia.
  - destruct (Nat.leb_spec (length unique) targetQuestions).
    + by apply take_ge.
    + rewrite length_take. lia.
Qed.

(** C2, an instance: 31 questions asked for, two batches with a repeated
    question and two items without one, no element [null]. *)
Lemma C2_bulk_witness :
  (30 < effectiveCount 31)%nat
  /\ items_of (merged (map two_batches (seq 0 (batches 31))))
     = Some two_batches_items
  /\ exists data,
       bulk_generation item_question 31 STUDENT two_batches = Fulfilled data
       /\ data = take 31 (first_occurrences item_question two_batches_items)
       /\ (length data <= 31)%nat
       /\ if (length (first_occurrences item_question two_batches_items)
              <=? 31)%nat
          then data = first_occurrences item_question two_batches_items
          else length data = 31%nat.
Proof.
  assert (30 < effectiveCount 31)%nat as H by (vm_compute; lia).
  split; [exact H|]. split; [reflexivity|].
  exact (C2_bulk_dedup_then_truncate item_question 31 STUDENT two_batches H).
Defined.

(** C3 as stated fails: with five tasks and a ceiling of 2, all five
    requests are outstanding once line 163 has called the tasks. *)
Lemma C3_five_tasks_ceiling_two :
  ~ respects_ceiling 2 (schedule five_tasks 2 [0; 1; 2; 3; 4]%nat).
Proof. intros H. specialize (H 5%nat). vm_compute in H. lia. Qed.

(** C3, amended.  Whatever the ceiling, [executeBulkParallel] calls every
    task before any of them settles: all the tasks are in flight together
    once they are launched, and the number of requests outstanding never
    exceeds the number of tasks. *)
Theorem C3_all_tasks_in_flight {T : Type} (tasks : list (task T))
    (concurrency : N) (order : list nat) :
  in_flight (launch tasks) = seq 0 (length tasks)
  /\ length (in_flight (take (length tasks) (schedule tasks concurrency order)))
     = length tasks
  /\ respects_ceiling (length tasks) (schedule tasks concurrency order).
Proof.
  split; [apply in_flight_launch|]. split; [|apply schedule_bound].
  unfold schedule.
  rewrite take_app_le by (unfold launch; by rewrite length_map, length_seq).
  rewrite take_ge by (unfold launch; by rewrite length_map, length_seq).
  by rewrite in_flight_launch, length_seq.
Qed.

(** C4.  [executeBulkParallel] always fulfils, with the results of the
    tasks that succeed: a failing task adds no item to the merged result
    and leaves the results of the other tasks in place, its error is not
    propagated, and when every task fails the result is the empty
    sequence.  The bulk branch built on it ends as if the failing task
    were not there, so a failure is never the cause of an error (the
    branch rejects only for a [null] element of a surviving reply), and
    when every task fails it returns the empty sequence. *)
Theorem C4_failures_are_swallowed {Item : Type}
    (question : Item -> option jsstring) (n : nat) (usageType : usage)
    (tasks before after : list (task (list (option Item)))) (e : error)
    (errs : list error) :
  executeBulkParallel tasks 50 usageType = Fulfilled (successes tasks)
  /\ merged (before ++ Rejected e :: after) = merged before ++ merged after
  /\ executeBulkParallel (before ++ Rejected e :: after) 50 usageType
     = executeBulkParallel (before ++ after) 50 usageType
  /\ bulk_data question n usageType (before ++ Rejected e :: after)
     = bulk_data question n usageType (before ++ after)
  /\ executeBulkParallel (map (@Rejected (list (option Item))) errs) 50
       usageType
     = Fulfilled []
  /\ bulk_data question n usageType
       (map (@Rejected (list (option Item))) errs)
     = Fulfilled [].
Proof.
  assert (merged (before ++ Rejected e :: after)
          = merged before ++ merged after) as Hm.
  { by rewrite (merged_app before (Rejected e :: after)). }
  split; [apply executeBulkParallel_successes|]. split; [exact Hm|]. split.
  { rewrite !executeBulkParallel_successes, !successes_app. done. }
  split.
  { by rewrite !bulk_data_spec, Hm, merged_app. }
  split.
  { by rewrite executeBulkParallel_successes, successes_rejected. }
  rewrite bulk_data_spec, merged_rejected. simpl. by destruct n.
Qed.

(** C9.  Line 163 maps each failing task to [null] and keeps the order of
    the tasks; [executeBulkParallel] returns the results of the tasks that
    succeed, in that order, the [null]s being filtered out; neither the
    result nor the schedule of the tasks depends on the [concurrency]
    argument. *)
Theorem C9_successes_in_task_order {T : Type} (tasks : list (task T))
    (concurrency : N) (usageType : usage) :
  Promise_all (map catch_null tasks) = Fulfilled (map or_null tasks)
  /\ executeBulkParallel tasks concurrency usageType
     = Fulfilled (successes tasks)
  /\ (forall concurrency',
        executeBulkParallel tasks concurrency' usageType
        = executeBulkParallel tasks concurrency usageType)
  /\ (forall concurrency' order,
        schedule tasks concurrency' order = schedule tasks concurrency order).
Proof.
  split; [apply Promise_all_catch_null|].
  split; [apply executeBulkParallel_successes|]. split.
  - intros c'. by rewrite !executeBulkParallel_successes.
  - done.
Qed.


(** * Further properties of the file *)

(** ** The log of [onChunk] calls *)

Module StreamMore.

(** What the read loop keeps true of the log of [onChunk] calls: every
    logged text is a prefix of [fullText], and the last one is [fullText]
    unless nothing was logged and [fullText] is empty. *)
Lemma calls_prefix_invariant chunks :
  Forall (fun t => t `prefix_of` fullText (read_all chunks))
    (calls (read_all chunks))
  /\ last (calls (read_all chunks))
     = match fullText (read_all chunks) with
       | [] => None
       | _ :: _ => Some (fullText (read_all chunks))
       end.
Proof.
  induction chunks as [|value chunks [Hp Hl]] using rev_ind.
  { split; [constructor|done]. }
  destruct (read_all_invariant chunks) as [_ Hf].
  rewrite read_all_snoc. unfold read_step.
  destruct (decode (decoder (read_all chunks)) value) as [d chunk].
  pose proof (extract_prefix (buffer (read_all chunks)) chunk) as Hext.
  rewrite <- Hf in Hext.
  destruct (Nat.ltb_spec (js_length (fullText (read_all chunks)))
              (js_length (extract (buffer (read_all chunks) ++ chunk))))
    as [Hlt|Hge]; simpl; [|done].
  split.
  - apply Forall_app. split; [|by repeat constructor].
    eapply Forall_impl; [exact Hp|]. simpl. intros t Ht. by etrans.
  - rewrite last_snoc.
    destruct (extract (buffer (read_all chunks) ++ chunk)); [|done].
    unfold js_length in Hlt. simpl in Hlt. lia.
Qed.

Lemma callGeminiApi_stream_app chunks more :
  callGeminiApi_stream chunks `prefix_of` callGeminiApi_stream (chunks ++ more).
Proof.
  rewrite !callGeminiApi_stream_spec, concat_app, decode_app.
  destruct (decode new_TextDecoder (concat chunks)) as [d1 o1].
  destruct (decode d1 (concat more)) as [d2 o2]. simpl.
  apply extract_prefix.
Qed.

End StreamMore.

(** ** [cleanJson], [trim] and [split] *)

Module TextFacts.

Lemma strip_prefix_drop p s r :
  strip_prefix p s = Some r -> r = drop (length p) s.
Proof. intros ->%strip_prefix_Some. by rewrite drop_app_length. Qed.

Lemma remove_all_from_drop p k s :
  remove_all_from p k s = remove_all p (drop k s).
Proof.
  revert k. induction s as [|c s IH]; intros [|k]; simpl; done.
Qed.

(** [remove_all], one position at a time. *)
Lemma remove_all_cons p c s :
  remove_all p (c :: s)
    = match strip_prefix p (c :: s) with
      | Some _ => remove_all p (drop (length p - 1) s)
      | None => c :: remove_all p s
      end.
Proof.
  unfold remove_all at 1. simpl.
  destruct (strip_prefix p (c :: s)); [|done]. apply remove_all_from_drop.
Qed.

Lemma includes_cons s c p :
  includes (c :: s) p
    = match strip_prefix p (c :: s) with
      | Some _ => true
      | None => includes s p
      end.
Proof. reflexivity. Qed.

Lemma includes_unfold s p :
  includes s p
    = match strip_prefix p s with
      | Some _ => true
      | None => match s with
                | [] => false
                | _ :: s' => includes s' p
                end
      end.
Proof. by destruct s. Qed.

Lemma includes_true s p :
  includes s p = true <-> exists a b, s = a ++ p ++ b.
Proof.
  split.
  - induction s as [|c s IH].
    + simpl. destruct (strip_prefix p []) eqn:Hp; [|done].
      apply strip_prefix_Some in Hp. intros _. by exists [], l.
    + rewrite includes_cons. destruct (strip_prefix p (c :: s)) eqn:Hp.
      * apply strip_prefix_Some in Hp. intros _. by exists [], l.
      * intros (a & b & ->)%IH. by exists (c :: a), b.
  - intros (a & b & ->). induction a as [|c a IH].
    + simpl. by rewrite includes_unfold, strip_prefix_app.
    + change ((c :: a) ++ p ++ b) with (c :: (a ++ p ++ b)).
      rewrite includes_cons. by destruct (strip_prefix _ _).
Qed.

Lemma includes_false_sub s p a x b :
  includes s p = false -> s = a ++ x ++ b -> includes x p = false.
Proof.
  intros Hs ->. apply not_true_iff_false. intros (a' & b' & ->)%includes_true.
  apply not_true_iff_false in Hs. apply Hs, includes_true.
  exists (a ++ a'), (b' ++ b). by rewrite <- !app_assoc.
Qed.

Lemma includes_false_cons c s p :
  includes (c :: s) p = false ->
  strip_prefix p (c :: s) = None /\ includes s p = false.
Proof. rewrite includes_cons. by destruct (strip_prefix p (c :: s)). Qed.

(** Nothing is removed from a text without the pattern. *)
Lemma remove_all_absent p s : includes s p = false -> remove_all p s = s.
Proof.
  induction s as [|c s IH]; [done|].
  intros [Hc Hs]%includes_false_cons. rewrite remove_all_cons, Hc. by rewrite IH.
Qed.

(** After the fences are removed no fence is left: what remains of a run
    of backquotes is shorter than a fence and stays apart from the next
    run. *)
Lemma remove_all_fence_head s :
  strip_prefix FENCE (remove_all FENCE s) = None.
Proof.
  remember (length s) as n eqn:Hn. revert s Hn.
  induction n as [n IH] using lt_wf_ind. intros s ->.
  destruct s as [|c1 s]; [done|]. rewrite remove_all_cons.
  destruct (strip_prefix FENCE (c1 :: s)) as [r|] eqn:H1.
  { apply (IH (length (drop (length FENCE - 1) s))); [|done].
    rewrite length_drop. simpl. lia. }
  destruct s as [|c2 s].
  { unfold FENCE. cbn [strip_prefix remove_all remove_all_from]. case_eqb. }
  rewrite remove_all_cons.
  destruct (strip_prefix FENCE (c2 :: s)) as [r|] eqn:H2.
  { apply strip_prefix_Some in H2. injection H2 as -> ->.
    revert H1. unfold FENCE. cbn [strip_prefix app]. case_eqb. }
  destruct s as [|c3 s].
  { unfold FENCE. cbn [strip_prefix remove_all remove_all_from]. case_eqb. }
  rewrite remove_all_cons.
  destruct (strip_prefix FENCE (c3 :: s)) as [r|] eqn:H3.
  { apply strip_prefix_Some in H3. injection H3 as -> ->.
    revert H1 H2. unfold FENCE. cbn [strip_prefix app]. case_eqb. }
  revert H1. unfold FENCE. cbn [strip_prefix]. case_eqb.
Qed.

Lemma remove_all_fence_free s : includes (remove_all FENCE s) FENCE = false.
Proof.
  remember (length s) as n eqn:Hn. revert s Hn.
  induction n as [n IH] using lt_wf_ind. intros s ->.
  destruct s as [|c s]; [done|].
  pose proof (remove_all_fence_head (c :: s)) as Hh.
  rewrite remove_all_cons in *.
  destruct (strip_prefix FENCE (c :: s)) as [r|] eqn:H1.
  - apply (IH (length (drop (length FENCE - 1) s))); [|done].
    rewrite length_drop. simpl. lia.
  - rewrite includes_cons, Hh. by apply (IH (length s)); [simpl; lia|].
Qed.

(** *** [trim] *)

Lemma trimStart_split s :
  exists a, s = a ++ trimStart s /\ forallb is_space a = true.
Proof.
  induction s as [|c s (a & Heq & Ha)]; simpl; [by exists []|].
  destruct (is_space c) eqn:Hc.
  - exists (c :: a). simpl. rewrite Hc, Ha. split; [congruence|done].
  - by exists [].
Qed.

Lemma trimStart_head s :
  match trimStart s with c :: _ => is_space c = false | [] => True end.
Proof.
  induction s as [|c s IH]; simpl; [done|].
  destruct (is_space c) eqn:Hc; [done|]. done.
Qed.

Lemma trimStart_id s :
  match s with c :: _ => is_space c = false | [] => True end ->
  trimStart s = s.
Proof. destruct s as [|c s]; simpl; [done|]. by intros ->. Qed.

Lemma trimEnd_split s :
  exists b, s = trimEnd s ++ b /\ forallb is_space b = true.
Proof.
  unfold trimEnd. destruct (trimStart_split (rev s)) as (a & Heq & Ha).
  exists (rev a). split.
  - apply (f_equal (@rev N)) in Heq. rewrite rev_involutive, rev_app_distr in Heq.
    done.
  - rewrite forallb_forall in *. intros x Hx. apply Ha. by apply in_rev.
Qed.

Lemma trimEnd_last s :
  match last (trimEnd s) with Some c => is_space c = false | None => True end.
Proof.
  unfold trimEnd. pose proof (trimStart_head (rev s)) as H.
  destruct (trimStart (rev s)) as [|c t]; [done|].
  simpl. by rewrite last_snoc.
Qed.

Lemma trimEnd_id s :
  match last s with Some c => is_space c = false | None => True end ->
  trimEnd s = s.
Proof.
  intros H. unfold trimEnd. rewrite trimStart_id; [apply rev_involutive|].
  destruct s as [|c s _] using rev_ind; [done|].
  rewrite last_snoc in H. by rewrite rev_app_distr.
Qed.

(** The head of a non-empty prefix. *)
Lemma trimEnd_head s :
  match s with c :: _ => is_space c = false | [] => True end ->
  match trimEnd s with c :: _ => is_space c = false | [] => True end.
Proof.
  intros H. destruct (trimEnd_split s) as (b & Heq & _).
  destruct (trimEnd s) as [|c t]; [done|]. rewrite Heq in H. done.
Qed.

Lemma trim_split s :
  exists a b, s = a ++ trim s ++ b
              /\ forallb is_space a = true /\ forallb is_space b = true.
Proof.
  destruct (trimStart_split s) as (a & Heq & Ha).
  destruct (trimEnd_split (trimStart s)) as (b & Heq' & Hb).
  exists a, b. unfold trim. by rewrite <- Heq', <- Heq.
Qed.

Lemma trim_ends s :
  match trim s with c :: _ => is_space c = false | [] => True end
  /\ match last (trim s) with Some c => is_space c = false | None => True end.
Proof.
  split; [apply trimEnd_head, trimStart_head|apply trimEnd_last].
Qed.

Lemma trim_id s :
  match s with c :: _ => is_space c = false | [] => True end ->
  match last s with Some c => is_space c = false | None => True end ->
  trim s = s.
Proof. intros Hh Hl. unfold trim. by rewrite trimStart_id, trimEnd_id. Qed.

Lemma trim_trim s : trim (trim s) = trim s.
Proof. destruct (trim_ends s). by apply trim_id. Qed.

Lemma trim_nil : trim [] = [].
Proof. reflexivity. Qed.

(** *** [cleanJson] *)

Lemma includes_fence_json s :
  includes s FENCE = false -> includes s FENCE_JSON = false.
Proof.
  intros H. apply not_true_iff_false. intros (a & b & ->)%includes_true.
  apply not_true_iff_false in H. apply H, includes_true.
  exists a, (codes "json" ++ b). unfold FENCE_JSON. by rewrite <- app_assoc.
Qed.

Lemma cleanJson_fence_free text : includes (cleanJson text) FENCE = false.
Proof.
  unfold cleanJson.
  destruct (trim_split (remove_all FENCE (remove_all FENCE_JSON text)))
    as (a & b & Heq & _).
  eapply includes_false_sub; [apply remove_all_fence_free|exact Heq].
Qed.

Lemma cleanJson_trimmed text :
  match cleanJson text with c :: _ => is_space c = false | [] => True end
  /\ match last (cleanJson text) with
     | Some c => is_space c = false
     | None => True
     end.
Proof. apply trim_ends. Qed.

Lemma cleanJson_cleanJson text : cleanJson (cleanJson text) = cleanJson text.
Proof.
  pose proof (cleanJson_fence_free text) as Hf.
  destruct (cleanJson_trimmed text) as [Hh Hl].
  unfold cleanJson at 1.
  rewrite (remove_all_absent FENCE_JSON) by by apply includes_fence_json.
  rewrite (remove_all_absent FENCE) by done. by apply trim_id.
Qed.

(** *** [split] *)

Lemma split_from_drop p k piece s :
  split_from p k piece s = split_from p 0 piece (drop k s).
Proof. revert k. induction s as [|c s IH]; intros [|k]; simpl; done. Qed.

Lemma split_from_cons p piece c s :
  split_from p 0 piece (c :: s)
    = match strip_prefix p (c :: s) with
      | Some _ => piece :: split_from p 0 [] (drop (length p - 1) s)
      | None => split_from p 0 (piece ++ [c]) s
      end.
Proof.
  simpl. destruct (strip_prefix p (c :: s)); [|done].
  by rewrite split_from_drop.
Qed.

(** Without the separator there is one piece. *)
Lemma split_from_absent p piece s :
  includes s p = false -> split_from p 0 piece s = [piece ++ s].
Proof.
  revert piece. induction s as [|c s IH]; intros piece.
  - by rewrite app_nil_r.
  - intros [Hc Hs]%includes_false_cons. rewrite split_from_cons, Hc, IH by done.
    by rewrite <- app_assoc.
Qed.

(** The first piece ends at the first occurrence of the separator. *)
Lemma split_from_first p piece a b :
  p <> [] ->
  (forall x y, a = x ++ y -> y <> [] -> strip_prefix p (y ++ p ++ b) = None) ->
  split_from p 0 piece (a ++ p ++ b) = (piece ++ a) :: split_from p 0 [] b.
Proof.
  intros Hp. revert piece. induction a as [|c a IH]; intros piece Hno.
  - rewrite app_nil_r. simpl app.
    destruct p as [|q p]; [done|]. simpl app.
    rewrite split_from_cons.
    change (q :: p ++ b) with ((q :: p) ++ b). rewrite strip_prefix_app.
    replace (length (q :: p) - 1)%nat with (length p) by (simpl; lia).
    by rewrite drop_app_length.
  - change ((c :: a) ++ p ++ b) with (c :: (a ++ p ++ b)).
    rewrite split_from_cons.
    pose proof (Hno [] (c :: a) eq_refl ltac:(done)) as Hc.
    change ((c :: a) ++ p ++ b) with (c :: (a ++ p ++ b)) in Hc.
    rewrite Hc, IH.
    + by rewrite <- app_assoc.
    + intros x y -> Hy. by apply (Hno (c :: x) y).
Qed.

Lemma strip_prefix_app_None p y z :
  strip_prefix p y = None -> (length p <= length y)%nat ->
  strip_prefix p (y ++ z) = None.
Proof.
  revert y. induction p as [|a p IH]; intros [|c y]; simpl; try done; [lia|].
  destruct (a =? c); [|done]. intros H Hl. apply IH; [done|lia].
Qed.

(** A marker does not straddle the end of a text and a following
    marker. *)
Lemma premium_straddle y b :
  y <> [] -> strip_prefix PREMIUM y = None ->
  strip_prefix PREMIUM (y ++ PREMIUM ++ b) = None.
Proof.
  intros Hne Hy.
  destruct (decide (length PREMIUM <= length y)%nat) as [Hl|Hl];
    [by apply strip_prefix_app_None|].
  change PREMIUM with [60; 60; 60; 80; 82; 69; 77; 73; 85; 77; 62; 62; 62] in *.
  do 13 (destruct y as [|? y]; [try done; cbn [strip_prefix app]; case_eqb|]).
  simpl in Hl. lia.
Qed.

Lemma summary_straddle y b :
  y <> [] -> strip_prefix SUMMARY y = None ->
  strip_prefix SUMMARY (y ++ SUMMARY ++ b) = None.
Proof.
  intros Hne Hy.
  destruct (decide (length SUMMARY <= length y)%nat) as [Hl|Hl];
    [by apply strip_prefix_app_None|].
  change SUMMARY with [60; 60; 60; 83; 85; 77; 77; 65; 82; 89; 62; 62; 62] in *.
  do 13 (destruct y as [|? y]; [try done; cbn [strip_prefix app]; case_eqb|]).
  simpl in Hl. lia.
Qed.

Lemma includes_false_suffix a x y p :
  includes a p = false -> a = x ++ y -> y <> [] -> strip_prefix p y = None.
Proof.
  intros Ha -> Hy.
  assert (includes y p = false) as Hyp.
  { eapply (includes_false_sub _ p x y []); [done|by rewrite app_nil_r]. }
  destruct y as [|c y]; [done|]. by apply includes_false_cons in Hyp as [? _].
Qed.

Lemma split_premium piece a b :
  includes a PREMIUM = false ->
  split_from PREMIUM 0 piece (a ++ PREMIUM ++ b)
    = (piece ++ a) :: split_from PREMIUM 0 [] b.
Proof.
  intros Ha. apply split_from_first; [done|].
  intros x y Heq Hy. apply premium_straddle; [done|].
  by eapply includes_false_suffix.
Qed.

Lemma split_summary piece a b :
  includes a SUMMARY = false ->
  split_from SUMMARY 0 piece (a ++ SUMMARY ++ b)
    = (piece ++ a) :: split_from SUMMARY 0 [] b.
Proof.
  intros Ha. apply split_from_first; [done|].
  intros x y Heq Hy. apply summary_straddle; [done|].
  by eapply includes_false_suffix.
Qed.

Lemma includes_app_marker a p b : includes (a ++ p ++ b) p = true.
Proof. apply includes_true. by exists a, b. Qed.

Lemma second_of_two (x y : jsstring) : [x; y] !! 1%nat = Some y.
Proof. reflexivity. Qed.

End TextFacts.

(** ** The keys kept by the de-duplication *)

Module DedupMore.

Section Keys.
Context {Item : Type} (question : Item -> option jsstring).
Implicit Types data : list Item.

Lemma filter_unseen_cons seen q data :
  filter_unseen question seen (q :: data)
    = if bool_decide (question q ∈ seen)
      then filter_unseen question ({[question q]} ∪ seen) data
      else q :: filter_unseen question ({[question q]} ∪ seen) data.
Proof. simpl. by destruct (bool_decide _). Qed.

(** The keys kept are new and pairwise distinct. *)
Lemma filter_unseen_fresh seen data :
  NoDup (map question (filter_unseen question seen data))
  /\ Forall (fun k => k ∉ seen) (map question (filter_unseen question seen data)).
Proof.
  revert seen. induction data as [|q data IH]; intros seen.
  { split; constructor. }
  rewrite filter_unseen_cons.
  destruct (IH ({[question q]} ∪ seen)) as [Hnd Hfr].
  assert (Forall (fun k => (k ∉ seen) /\ k <> question q)
            (map question (filter_unseen question ({[question q]} ∪ seen) data)))
    as Hfr'.
  { eapply Forall_impl; [exact Hfr|]. simpl. set_solver. }
  case_bool_decide as Hq.
  - split; [done|]. eapply Forall_impl; [exact Hfr'|]. simpl. tauto.
  - simpl. split.
    + constructor; [|done]. rewrite Forall_forall in Hfr'.
      intros Hin. by destruct (Hfr' _ Hin).
    + constructor; [done|]. eapply Forall_impl; [exact Hfr'|]. simpl. tauto.
Qed.

Lemma filter_unseen_sublist seen data :
  filter_unseen question seen data `sublist_of` data.
Proof.
  revert seen. induction data as [|q data IH]; intros seen; [done|].
  rewrite filter_unseen_cons. case_bool_decide.
  - by apply sublist_cons.
  - by apply sublist_skip.
Qed.

(** No key is lost. *)
Lemma filter_unseen_key_set seen data :
  list_to_set (map question (filter_unseen question seen data)) ∪ seen
    = (list_to_set (map question data) ∪ seen : gset (option jsstring)).
Proof.
  revert seen. induction data as [|q data IH]; intros seen; [done|].
  rewrite filter_unseen_cons. specialize (IH ({[question q]} ∪ seen)).
  case_bool_decide as Hq; cbn [map]; rewrite ?list_to_set_cons;
    set (A := list_to_set (map question
                 (filter_unseen question ({[question q]} ∪ seen) data))
              : gset (option jsstring)) in *;
    set (B := list_to_set (map question data) : gset (option jsstring)) in *;
    clearbody A B; apply set_eq; intros x;
    pose proof (proj1 (set_eq _ _) IH x) as Hx;
    rewrite !elem_of_union, !elem_of_singleton in *;
    destruct (decide (x = question q)) as [->|]; tauto.
Qed.

Lemma filter_unseen_distinct seen data :
  NoDup (map question data) ->
  Forall (fun k => k ∉ seen) (map question data) ->
  filter_unseen question seen data = data.
Proof.
  revert seen. induction data as [|q data IH]; intros seen Hnd Hfr; [done|].
  simpl in Hnd, Hfr. apply NoDup_cons in Hnd as [Hq Hnd].
  apply Forall_cons in Hfr as [Hqs Hfr].
  rewrite filter_unseen_cons, bool_decide_eq_false_2 by done.
  f_equal. apply IH; [done|].
  rewrite Forall_forall in *. intros k Hk. specialize (Hfr k Hk). set_solver.
Qed.

Lemma batches_bounds (targetQuestions : nat) :
  (batchSize * (batches targetQuestions - 1) < effectiveCount targetQuestions
   <= batchSize * batches targetQuestions)%nat.
Proof.
  unfold batches, batchSize.
  pose proof (Nat.div_mod (effectiveCount targetQuestions + (20 - 1)) 20
                ltac:(lia)).
  pose proof (Nat.mod_upper_bound (effectiveCount targetQuestions + (20 - 1)) 20
                ltac:(lia)).
  unfold effectiveCount in *. lia.
Qed.

End Keys.

End DedupMore.

(** ** [processTemplate] *)

Module TemplateFacts.
Import TextFacts.

Lemma replace_from_drop p v k before s :
  replace_from p v k before s
    = replace_from p v 0 (before ++ take k s) (drop k s).
Proof.
  revert k before. induction s as [|c s IH]; intros [|k] before; simpl;
    rewrite ?app_nil_r; try done.
  rewrite IH. by rewrite <- app_assoc.
Qed.

Lemma replace_from_cons p v before c s :
  replace_from p v 0 before (c :: s)
    = match strip_prefix_ci p (c :: s) with
      | Some after =>
          substitution v (take (length p) (c :: s)) before after
            ++ replace_from p v 0
                 (before ++ [c] ++ take (length p - 1) s)
                 (drop (length p - 1) s)
      | None => c :: replace_from p v 0 (before ++ [c]) s
      end.
Proof.
  simpl. destruct (strip_prefix_ci p (c :: s)); [|done].
  by rewrite replace_from_drop, <- app_assoc.
Qed.

Lemma includes_ci_cons s c p :
  includes_ci (c :: s) p
    = match strip_prefix_ci p (c :: s) with
      | Some _ => true
      | None => includes_ci s p
      end.
Proof. reflexivity. Qed.

Lemma includes_ci_false_cons c s p :
  includes_ci (c :: s) p = false ->
  strip_prefix_ci p (c :: s) = None /\ includes_ci s p = false.
Proof. rewrite includes_ci_cons. by destruct (strip_prefix_ci p (c :: s)). Qed.

(** Where the pattern does not occur nothing is replaced. *)
Lemma replace_from_absent p v before s :
  includes_ci s p = false -> replace_from p v 0 before s = s.
Proof.
  revert before. induction s as [|c s IH]; intros before; [done|].
  intros [Hc Hs]%includes_ci_false_cons.
  rewrite replace_from_cons, Hc. by rewrite IH.
Qed.

Lemma substitution_plain v matched before after :
  forallb (fun c => negb (c =? 36)) v = true ->
  substitution v matched before after = v.
Proof.
  induction v as [|c v IH]; [done|]. simpl.
  intros [Hc Hv]%andb_prop. destruct (c =? 36); [done|]. by rewrite IH.
Qed.

Lemma strip_prefix_ci_length p s r :
  strip_prefix_ci p s = Some r -> s = take (length p) s ++ r
                                  /\ (length p <= length s)%nat.
Proof.
  revert s. induction p as [|a p IH]; intros [|c s]; simpl; try done.
  - intros [= <-]. split; [done|lia].
  - intros [= <-]. split; [done|lia].
  - destruct (_ =? _); [|done]. intros [Heq Hl]%IH. split; [|lia].
    by rewrite <- Heq.
Qed.

Lemma strip_prefix_ci_app p s r z :
  strip_prefix_ci p s = Some r -> strip_prefix_ci p (s ++ z) = Some (r ++ z).
Proof.
  revert s. induction p as [|a p IH]; intros [|c s]; simpl; try done.
  - by intros [= <-].
  - by intros [= <-].
  - destruct (_ =? _); [|done]. apply IH.
Qed.

Lemma strip_prefix_ci_app_None p y z :
  strip_prefix_ci p y = None -> (length p <= length y)%nat ->
  strip_prefix_ci p (y ++ z) = None.
Proof.
  revert y. induction p as [|a p IH]; intros [|c y]; simpl; try done; [lia|].
  destruct (_ =? _); [|done]. intros H Hl. apply IH; [done|lia].
Qed.

(** A pattern whose later characters are no opening brace does not match
    across a following opening brace. *)
Lemma strip_prefix_ci_brace p y c0 z :
  Forall (fun c => fold_case c <> 123) p -> (length y < length p)%nat ->
  fold_case c0 = 123 ->
  strip_prefix_ci p (y ++ c0 :: z) = None.
Proof.
  revert y. induction p as [|a p IH]; intros y Hp Hl Hc0; [simpl in Hl; lia|].
  apply Forall_cons in Hp as [Ha Hp].
  destruct y as [|c y]; cbn [app strip_prefix_ci].
  - rewrite Hc0. destruct (fold_case a =? 123) eqn:E; [|done].
    apply N.eqb_eq in E. congruence.
  - destruct (_ =? _); [|done]. apply IH.
    + done.
    + simpl in Hl. lia.
    + done.
Qed.

Lemma placeholder_tail k :
  Forall (fun c => fold_case c <> 123) (slot_name k ++ [125]).
Proof.
  assert (forallb (fun c => negb (fold_case c =? 123)) (slot_name k ++ [125])
          = true) as Hb by (destruct k; reflexivity).
  apply Forall_forall. intros c Hc%list_elem_of_In.
  rewrite forallb_forall in Hb. specialize (Hb c Hc).
  by destruct (N.eqb_spec (fold_case c) 123).
Qed.

Lemma placeholder_straddle k y X r z :
  y <> [] -> strip_prefix_ci (placeholder k) y = None ->
  strip_prefix_ci (placeholder k) X = Some r ->
  strip_prefix_ci (placeholder k) (y ++ X ++ z) = None.
Proof.
  intros Hne Hy HX.
  destruct (decide (length (placeholder k) <= length y)%nat) as [Hl|Hl];
    [by apply strip_prefix_ci_app_None|].
  destruct X as [|c0 X]; [by destruct k|].
  assert (fold_case c0 = 123) as Hc0.
  { unfold placeholder in HX. cbn [strip_prefix_ci] in HX.
    destruct (fold_case 123 =? fold_case c0) eqn:E; [|done].
    apply N.eqb_eq in E. by rewrite <- E. }
  destruct y as [|c y]; [done|]. unfold placeholder in *.
  cbn [app strip_prefix_ci]. destruct (_ =? _); [|done].
  apply strip_prefix_ci_brace; [apply placeholder_tail| |done].
  simpl in Hl. lia.
Qed.

Lemma includes_ci_absent_suffix a x y p :
  includes_ci a p = false -> a = x ++ y -> y <> [] ->
  strip_prefix_ci p y = None.
Proof.
  intros Ha -> Hy. induction x as [|c x IH].
  - destruct y as [|c y]; [done|]. by apply includes_ci_false_cons in Ha as [? _].
  - apply IH. by apply includes_ci_false_cons in Ha as [_ ?].
Qed.

(** The text before the first placeholder is copied, the placeholder is
    replaced, and the scan goes on after it. *)
Lemma replace_from_first k v before a X z :
  includes_ci a (placeholder k) = false ->
  strip_prefix_ci (placeholder k) X = Some [] ->
  replace_from (placeholder k) v 0 before (a ++ X ++ z)
    = a ++ substitution v X (before ++ a) z
        ++ replace_from (placeholder k) v 0 (before ++ a ++ X) z.
Proof.
  intros Ha HX. revert before. induction a as [|c a IH]; intros before.
  - simpl app. rewrite !app_nil_r.
    destruct (strip_prefix_ci_length _ _ _ HX) as [HXeq HXl].
    rewrite app_nil_r in HXeq.
    destruct X as [|c0 X]; [by destruct k|].
    change ((c0 :: X) ++ z) with (c0 :: (X ++ z)).
    rewrite replace_from_cons.
    change (c0 :: (X ++ z)) with ((c0 :: X) ++ z).
    rewrite (strip_prefix_ci_app _ _ _ z HX).
    assert (length (placeholder k) = length (c0 :: X)) as Hlen.
    { apply (f_equal length) in HXeq. rewrite length_take in HXeq. lia. }
    rewrite Hlen, take_app_length.
    replace (length (c0 :: X) - 1)%nat with (length X) by (simpl; lia).
    by rewrite take_app_length, drop_app_length.
  - change ((c :: a) ++ X ++ z) with (c :: (a ++ X ++ z)).
    rewrite replace_from_cons.
    assert (strip_prefix_ci (placeholder k) ((c :: a) ++ X ++ z) = None) as Hn.
    { eapply placeholder_straddle; [done| |exact HX].
      by apply includes_ci_false_cons in Ha as [? _]. }
    change ((c :: a) ++ X ++ z) with (c :: (a ++ X ++ z)) in Hn.
    rewrite Hn, IH by by apply includes_ci_false_cons in Ha as [_ ?].
    simpl. by rewrite <- !app_assoc.
Qed.

End TemplateFacts.

(** ** The proxy *)

Module ProxyFacts.
Import TextFacts.

(** The pieces of a split at one character do not contain it. *)
Lemma split_from_char c piece s :
  c ∉ piece -> Forall (fun x => c ∉ x) (split_from [c] 0 piece s).
Proof.
  revert piece. induction s as [|x s IH]; intros piece Hp.
  - by repeat constructor.
  - rewrite split_from_cons. cbn [strip_prefix length Nat.sub drop].
    destruct (N.eqb_spec c x) as [->|Hne].
    + constructor; [done|]. apply IH. apply not_elem_of_nil.
    + apply IH. rewrite elem_of_app, list_elem_of_singleton. tauto.
Qed.

Lemma trim_sub c s : c ∉ s -> c ∉ trim s.
Proof.
  destruct (trim_split s) as (a & b & Heq & _). intros Hc Hin. apply Hc.
  rewrite Heq, !elem_of_app. tauto.
Qed.

Lemma env_keys_clean keysRaw : Forall clean_key (env_keys keysRaw).
Proof.
  unfold env_keys. apply Forall_forall. intros k Hk%list_elem_of_In.
  apply filter_In in Hk as [Hin Hne]. apply in_map_iff in Hin as (x & <- & Hx).
  pose proof (split_from_char 44 [] keysRaw (not_elem_of_nil _)) as Hs.
  rewrite Forall_forall in Hs. specialize (Hs x ltac:(by apply list_elem_of_In)).
  destruct (trim_ends x) as [Hh Hl].
  split; [by destruct (trim x)|]. split; [by apply trim_sub|done].
Qed.

Lemma choose_key_truthy key env pick :
  truthy key = true -> choose_key key env pick = key.
Proof. unfold choose_key. by intros ->. Qed.

Lemma clean_key_truthy k : clean_key k -> truthy (JStr k) = true.
Proof. intros [Hk _]. by destruct k. Qed.

(** The key chosen is truthy, or the request's falsy one when the
    environment has none. *)
Lemma choose_key_cases key env pick :
  (pick < match env with Some raw => Nat.max 1 (length (env_keys raw)) | None => 1 end)%nat ->
  truthy (choose_key key env pick) = true
  \/ (truthy key = false /\ choose_key key env pick = key
      /\ match env with Some raw => env_keys raw = [] | None => True end).
Proof.
  intros Hpick. unfold choose_key. destruct (truthy key) eqn:Hk; simpl; [by left|].
  destruct env as [raw|]; [|by right].
  destruct (nonempty raw) eqn:Hraw.
  - destruct (env_keys raw) as [|k0 ks] eqn:Hkeys; simpl; [by right|].
    destruct ((k0 :: ks) !! pick) as [k|] eqn:Hlook.
    + left. apply clean_key_truthy.
      pose proof (env_keys_clean raw) as Hc. rewrite Hkeys in Hc.
      rewrite Forall_forall in Hc. apply Hc. by eapply list_elem_of_lookup_2.
    + apply lookup_ge_None in Hlook. simpl in *. lia.
  - right. destruct raw; [|done]. done.
Qed.

Lemma choose_key_none key env pick :
  truthy key = false ->
  match env with Some raw => env_keys raw = [] | None => True end ->
  choose_key key env pick = key.
Proof.
  intros Hk Henv. unfold choose_key. rewrite Hk. simpl.
  destruct env as [raw|]; [|done]. rewrite Henv. simpl.
  by destruct (nonempty raw).
Qed.

Lemma handler_calls req env pick fetch :
  fst (handler req env pick fetch) = fst (handler_try req env pick fetch).
Proof. unfold handler. by destruct (handler_try _ _ _ _) as [calls [r|e]]. Qed.

(** The handler makes no upstream call, or one, after the guard of line
    41 and the conversions of line 63. *)
Lemma handler_try_calls req env pick fetch :
  fst (handler_try req env pick fetch) = []
  \/ exists r, fst (handler_try req env pick fetch) = [r]
               /\ truthy (url_key r) = true
               /\ ToString_throws (url_key r) = false
               /\ ToString_throws (url_model r) = false.
Proof.
  unfold handler_try.
  case_bool_decide; [|by left]. cbn [negb].
  destruct (req_json req) as [body|e]; [|by left].
  destruct (bind (get_field body (codes "contents")) _)
    as [[[[[[[contents model] tools] tool_config] key] stream] sys]|e];
    [|by left].
  destruct (truthy (choose_key key env pick)) eqn:Hk; cbn [negb]; [|by left].
  destruct (ToString_throws (modelName model)) eqn:Hm; cbn [orb]; [by left|].
  destruct (ToString_throws (choose_key key env pick)) eqn:Hs; [by left|].
  right.
  exists {| url_model := modelName model;
            url_method := if truthy stream then streamGenerateContent
                          else generateContent;
            url_key := choose_key key env pick;
            payload := make_payload contents sys tools tool_config |}.
  split; [|done].
  match goal with
  | |- context [fetch ?r] => destruct (fetch r) as [res|?]
  end; [|done].
  destruct (up_ok res); cbn [negb].
  - destruct (truthy stream); [done|]. by destruct (up_json res).
  - by destruct (up_text res).
Qed.

End ProxyFacts.

Import StreamMore TextFacts DedupMore TemplateFacts ProxyFacts.

(** ** Streaming path *)

(** X1.  Every text handed to [onChunk] is a prefix of the text
    [callGeminiApi] returns, and of every text handed to a later call: the
    text shown only grows at its end. *)
Theorem onChunk_texts_are_prefixes (chunks : list (list byte)) :
  Forall (fun t => t `prefix_of` callGeminiApi_stream chunks)
    (onChunk_calls chunks)
  /\ StronglySorted (fun a b => a `prefix_of` b) (onChunk_calls chunks).
Proof.
  split; [apply calls_prefix_invariant|].
  unfold onChunk_calls.
  induction chunks as [|value chunks IH] using rev_ind; [constructor|].
  destruct (calls_prefix_invariant chunks) as [Hp _].
  destruct (read_all_invariant chunks) as [_ Hf].
  rewrite read_all_snoc. unfold read_step.
  destruct (decode (decoder (read_all chunks)) value) as [d chunk].
  pose proof (extract_prefix (buffer (read_all chunks)) chunk) as Hext.
  rewrite <- Hf in Hext.
  destruct (js_length (fullText (read_all chunks))
            <? js_length (extract (buffer (read_all chunks) ++ chunk)))%nat;
    simpl; [|done].
  apply StronglySorted_app_2; [|done|repeat constructor].
  intros a b Ha ->%list_elem_of_singleton.
  rewrite Forall_forall in Hp. etrans; [by apply Hp|done].
Qed.

(** X2.  The last text handed to [onChunk] is the text returned; the
    callback is never called exactly when the text returned is empty. *)
Theorem last_onChunk_is_result (chunks : list (list byte)) :
  last (onChunk_calls chunks)
  = match callGeminiApi_stream chunks with
    | [] => None
    | _ :: _ => Some (callGeminiApi_stream chunks)
    end.
Proof. apply calls_prefix_invariant. Qed.

(** X3.  A stream that stops early returns a prefix of what the whole
    stream returns. *)
Theorem truncated_stream_gives_prefix (chunks more : list (list byte)) :
  callGeminiApi_stream chunks `prefix_of` callGeminiApi_stream (chunks ++ more).
Proof. apply callGeminiApi_stream_app. Qed.

(** X4.  When the quoted key followed by a colon occurs nowhere in the
    decoded stream, the text returned is empty and [onChunk] is never
    called. *)
Theorem stream_without_key_is_empty (chunks : list (list byte)) :
  key_free (snd (decode new_TextDecoder (concat chunks))) = true ->
  callGeminiApi_stream chunks = [] /\ onChunk_calls chunks = [].
Proof.
  intros Hk.
  assert (callGeminiApi_stream chunks = []) as Hr.
  { rewrite callGeminiApi_stream_spec, extract_unfold.
    by rewrite exec_key_free. }
  split; [done|].
  destruct (calls_prefix_invariant chunks) as [_ Hl].
  unfold callGeminiApi_stream in Hr. rewrite Hr in Hl.
  by apply last_None.
Qed.

(** X4, an instance. *)
Lemma stream_without_key_witness :
  key_free (snd (decode new_TextDecoder (concat keyless_chunks))) = true
  /\ callGeminiApi_stream keyless_chunks = []
  /\ onChunk_calls keyless_chunks = [].
Proof.
  split; [reflexivity|].
  apply (stream_without_key_is_empty keyless_chunks). reflexivity.
Defined.

(** ** Non-streaming path *)

(** X5.  A reply that is no object, or whose [candidates] is missing,
    [null] or an empty array, gives the empty string. *)
Theorem reply_without_candidates (data : jsval) :
  candidates_absent data = true ->
  callGeminiApi_json data = Normal (JStr []).
Proof.
  unfold candidates_absent, callGeminiApi_json, first_candidate_text.
  destruct data as [| | | | | |fields]; simpl; try done.
  destruct (own_property (codes "candidates") fields) as [| | | | |[|x l]|];
    simpl; done.
Qed.

(** X5, an instance. *)
Lemma reply_without_candidates_witness :
  candidates_absent blocked_data = true
  /\ callGeminiApi_json blocked_data = Normal (JStr []).
Proof.
  split; [reflexivity|].
  apply (reply_without_candidates blocked_data). reflexivity.
Defined.

(** ** [cleanJson] *)

(** X6.  The result of [cleanJson] contains no run of three backquotes
    and neither begins nor ends with white space. *)
Theorem cleanJson_leaves_no_fence (text : jsstring) :
  includes (cleanJson text) FENCE = false
  /\ match cleanJson text with c :: _ => is_space c = false | [] => True end
  /\ match last (cleanJson text) with
     | Some c => is_space c = false
     | None => True
     end.
Proof. split; [apply cleanJson_fence_free|apply cleanJson_trimmed]. Qed.

(** X7.  Cleaning twice is cleaning once. *)
Theorem cleanJson_idempotent (text : jsstring) :
  cleanJson (cleanJson text) = cleanJson text.
Proof. apply cleanJson_cleanJson. Qed.

(** ** The dual-notes reply *)

(** X8.  When the reply is some text, the premium marker, the premium
    notes, the summary marker and the summary, with no other marker, the
    premium text is the premium notes and the free text the summary, both
    trimmed; the text before the premium marker is dropped. *)
Theorem dual_notes_round_trip (pre P S : jsstring) :
  includes pre PREMIUM = false ->
  includes (P ++ SUMMARY ++ S) PREMIUM = false ->
  includes P SUMMARY = false ->
  includes S SUMMARY = false ->
  dual_notes (pre ++ PREMIUM ++ P ++ SUMMARY ++ S) = (trim P, trim S).
Proof.
  intros Hpre Hrest HP HS. unfold dual_notes.
  rewrite includes_app_marker. unfold split.
  rewrite split_premium, split_from_absent, second_of_two by done.
  assert (nonempty ([] ++ P ++ SUMMARY ++ S) = true) as -> by by destruct P.
  rewrite !app_nil_l.
  rewrite split_summary, split_from_absent, second_of_two by done.
  rewrite !app_nil_l. cbn [List.nth]. by destruct S.
Qed.

(** X8, an instance. *)
Lemma dual_notes_round_trip_witness :
  includes (codes "Here: ") PREMIUM = false
  /\ includes (codes " deep " ++ SUMMARY ++ codes " short ") PREMIUM = false
  /\ includes (codes " deep ") SUMMARY = false
  /\ includes (codes " short ") SUMMARY = false
  /\ dual_notes (codes "Here: " ++ PREMIUM ++ codes " deep " ++ SUMMARY
                   ++ codes " short ")
     = (trim (codes " deep "), trim (codes " short ")).
Proof.
  do 4 (split; [reflexivity|]).
  apply (dual_notes_round_trip (codes "Here: ") (codes " deep ")
           (codes " short ")); reflexivity.
Defined.

(** X9.  When the reply has the premium marker once and no summary
    marker, the premium text is what follows the marker, trimmed, and the
    free text is empty, not the default sentence; a reply that ends with
    the marker gives two empty texts. *)
Theorem dual_notes_without_summary (pre rest : jsstring) :
  includes pre PREMIUM = false ->
  includes rest PREMIUM = false ->
  includes rest SUMMARY = false ->
  dual_notes (pre ++ PREMIUM ++ rest) = (trim rest, []).
Proof.
  intros Hpre Hrest Hs. unfold dual_notes.
  rewrite includes_app_marker. unfold split.
  rewrite split_premium, split_from_absent, second_of_two by done.
  rewrite !app_nil_l.
  destruct rest as [|c rest]; [done|]. cbn [nonempty].
  by rewrite split_from_absent.
Qed.

(** X9, an instance: the reply ends with the marker. *)
Lemma dual_notes_without_summary_witness :
  includes (codes "notes") PREMIUM = false
  /\ includes [] PREMIUM = false
  /\ includes [] SUMMARY = false
  /\ dual_notes (codes "notes" ++ PREMIUM ++ []) = (trim [], []).
Proof.
  do 3 (split; [reflexivity|]).
  apply (dual_notes_without_summary (codes "notes") []); reflexivity.
Defined.

(** ** Bulk generation *)

(** X10.  The bulk branch rejects, with the [TypeError] of line 590,
    exactly when an element of a surviving reply is [null]; when it
    fulfils, the items it returns have pairwise different questions (at
    most one of them has none). *)
Theorem bulk_result_distinct_questions {Item : Type}
    (question : Item -> option jsstring) (n : nat) (usageType : usage)
    (tasks : list (task (list (option Item)))) :
  match bulk_data question n usageType tasks with
  | Fulfilled data => NoDup (map question data) /\ None ∉ merged tasks
  | Rejected e => e = TypeError /\ None ∈ merged tasks
  end.
Proof.
  rewrite bulk_data_spec.
  destruct (items_of (merged tasks)) as [items|] eqn:H.
  - split.
    + rewrite <- filter_unseen_first_occurrences.
      destruct (filter_unseen_fresh question ∅ items) as [Hnd _].
      rewrite <- firstn_map.
      eapply sublist_NoDup; [exact Hnd|apply sublist_take].
    + intros Hin. apply (items_of_None question) in Hin. congruence.
  - split; [done|]. by apply (items_of_None question).
Qed.

(** X11.  The de-duplication keeps items in their order and loses no
    question: the questions of the items kept are those of all the
    items. *)
Theorem dedup_keeps_every_question {Item : Type}
    (question : Item -> option jsstring) (data : list Item) :
  filter_unseen question ∅ data `sublist_of` data
  /\ list_to_set (map question (filter_unseen question ∅ data))
     = (list_to_set (map question data) : gset (option jsstring)).
Proof.
  split; [apply filter_unseen_sublist|].
  pose proof (filter_unseen_key_set question ∅ data) as H.
  by rewrite !(right_id_L ∅ (∪)) in H.
Qed.

(** X12.  De-duplicating twice is de-duplicating once. *)
Theorem dedup_idempotent {Item : Type}
    (question : Item -> option jsstring) (data : list Item) :
  filter_unseen question ∅ (filter_unseen question ∅ data)
  = filter_unseen question ∅ data.
Proof.
  destruct (filter_unseen_fresh question ∅ data) as [Hnd Hfr].
  by apply filter_unseen_distinct.
Qed.

(** X14.  When every sub-batch succeeds with a full batch of items and
    all the questions differ, a bulk run returns exactly the count asked
    for: the first [targetQuestions] items in batch order. *)
Theorem full_fresh_batches {Item : Type}
    (question : Item -> option jsstring) (targetQuestions : nat)
    (usageType : usage) (items : nat -> list Item) :
  (30 < effectiveCount targetQuestions)%nat ->
  (forall i, length (items i) = batchSize) ->
  NoDup (map question (concat (map items (seq 0 (batches targetQuestions))))) ->
  bulk_generation question targetQuestions usageType
    (fun i => Fulfilled (map Some (items i)))
  = Fulfilled
      (take targetQuestions
         (concat (map items (seq 0 (batches targetQuestions)))))
  /\ length (take targetQuestions
               (concat (map items (seq 0 (batches targetQuestions)))))
     = targetQuestions.
Proof.
  intros Hbulk Hfull Hnd.
  assert (effectiveCount targetQuestions = targetQuestions) as Hn.
  { unfold effectiveCount in *. lia. }
  split.
  - unfold bulk_generation. rewrite bulk_data_spec, Hn.
    assert (forall l, merged (map (fun i => Fulfilled (map Some (items i))) l)
                      = map Some (concat (map items l))) as Hm.
    { unfold merged. induction l as [|i l IH]; [done|].
      cbn [map concat contribution]. by rewrite IH, map_app. }
    rewrite Hm, (proj2 (items_of_Some _ _) eq_refl).
    rewrite <- filter_unseen_first_occurrences.
    rewrite filter_unseen_distinct; [done|done|].
    apply Forall_forall. intros k _. apply not_elem_of_empty.
  - rewrite length_take.
    assert (forall l, length (concat (map items l))
                      = (batchSize * length l)%nat) as Hlen.
    { induction l as [|i l IH]; cbn [concat map length]; [lia|].
      rewrite length_app, IH, Hfull. lia. }
    rewrite Hlen, length_seq.
    pose proof (batches_bounds targetQuestions). lia.
Qed.

(** X14, an instance: 31 questions, two batches of twenty. *)
Lemma full_fresh_batches_witness :
  (30 < effectiveCount 31)%nat
  /\ (forall i, length (fresh_items i) = batchSize)
  /\ NoDup (map item_question
              (concat (map fresh_items (seq 0 (batches 31)))))
  /\ bulk_generation item_question 31 STUDENT
       (fun i => Fulfilled (map Some (fresh_items i)))
     = Fulfilled (take 31 (concat (map fresh_items (seq 0 (batches 31)))))
  /\ length (take 31 (concat (map fresh_items (seq 0 (batches 31)))))
     = 31%nat.
Proof.
  assert (30 < effectiveCount 31)%nat as H1 by (vm_compute; lia).
  assert (forall i, length (fresh_items i) = batchSize) as H2
    by (intros i; reflexivity).
  assert (NoDup (map item_question
                   (concat (map fresh_items (seq 0 (batches 31)))))) as H3
    by (apply (bool_decide_unpack _); vm_compute; exact I).
  split; [exact H1|]. split; [exact H2|]. split; [exact H3|].
  exact (full_fresh_batches item_question 31 STUDENT fresh_items H1 H2 H3).
Defined.

(** ** [processTemplate] *)

(** X15.  A template in which no placeholder of the given keys occurs,
    in any letter case, is returned as it is. *)
Theorem processTemplate_nothing_to_replace
    (template : jsstring) (replacements : list (slot * jsstring)) :
  Forall (fun kv => includes_ci template (placeholder (fst kv)) = false)
    replacements ->
  processTemplate template replacements = template.
Proof.
  unfold processTemplate. induction 1 as [|[k v] l Hk _ IH]; [done|].
  simpl. unfold replace_slot at 2. by rewrite replace_from_absent.
Qed.

(** X15, an instance. *)
Lemma processTemplate_nothing_witness :
  Forall (fun kv => includes_ci (codes "Create 45 MCQs {x}")
                      (placeholder (fst kv)) = false)
    [(k_count, codes "20"); (k_instruction, codes "BATCH 1/3")]
  /\ processTemplate (codes "Create 45 MCQs {x}")
       [(k_count, codes "20"); (k_instruction, codes "BATCH 1/3")]
     = codes "Create 45 MCQs {x}".
Proof.
  assert (Forall (fun kv => includes_ci (codes "Create 45 MCQs {x}")
                              (placeholder (fst kv)) = false)
            [(k_count, codes "20"); (k_instruction, codes "BATCH 1/3")]) as H
    by (repeat constructor).
  split; [exact H|].
  exact (processTemplate_nothing_to_replace _ _ H).
Defined.

(** X16.  A value without a dollar sign takes the place of the one
    placeholder of its key, whatever the letter case of the placeholder,
    and the text around it is left as it is. *)
Theorem processTemplate_plain_value
    (k : slot) (value a X b : jsstring) :
  forallb (fun c => negb (c =? 36)) value = true ->
  strip_prefix_ci (placeholder k) X = Some [] ->
  includes_ci a (placeholder k) = false ->
  includes_ci b (placeholder k) = false ->
  processTemplate (a ++ X ++ b) [(k, value)] = a ++ value ++ b.
Proof.
  intros Hv HX Ha Hb. unfold processTemplate, replace_slot. simpl.
  rewrite replace_from_first, substitution_plain, replace_from_absent by done.
  done.
Qed.

(** X16, an instance. *)
Lemma processTemplate_plain_witness :
  forallb (fun c => negb (c =? 36)) (codes "CBSE") = true
  /\ strip_prefix_ci (placeholder k_board) (codes "{Board}") = Some []
  /\ includes_ci (codes "For ") (placeholder k_board) = false
  /\ includes_ci (codes " class {class}") (placeholder k_board) = false
  /\ processTemplate (codes "For " ++ codes "{Board}" ++ codes " class {class}")
       [(k_board, codes "CBSE")]
     = codes "For " ++ codes "CBSE" ++ codes " class {class}".
Proof.
  do 4 (split; [reflexivity|]).
  apply (processTemplate_plain_value k_board (codes "CBSE") (codes "For ")
           (codes "{Board}") (codes " class {class}")); reflexivity.
Defined.

(** ** The proxy *)

(** X17.  Every key read from the environment is non-empty, has no
    comma and no white space at either end. *)
Theorem env_keys_are_clean (keysRaw : jsstring) :
  Forall clean_key (env_keys keysRaw).
Proof. apply env_keys_clean. Qed.

(** X18.  The handler calls the upstream API at most once, and only
    after the guard of line 41 and the conversions of line 63: the key
    value is truthy, and the model and the key have a conversion to text.
    The guard tests the key as a value, not as the text written into the
    URL: the key of [empty_array_key] is truthy and its text is empty. *)
Theorem handler_calls_have_key (req : Request) (env : option jsstring)
    (pick : nat) (fetch : upstream_request -> completion upstream_response) :
  (length (fst (handler req env pick fetch)) <= 1)%nat
  /\ Forall (fun c => truthy (url_key c) = true
                      /\ ToString_throws (url_key c) = false
                      /\ ToString_throws (url_model c) = false)
       (fst (handler req env pick fetch)).
Proof.
  rewrite handler_calls.
  destruct (handler_try_calls req env pick fetch) as [->|(r & -> & H)].
  - split; [simpl; lia|constructor].
  - split; [simpl; lia|]. constructor; [exact H|constructor].
Qed.

(** X19.  A truthy key in the request body is used whatever the
    environment holds and whatever the random pick. *)
Theorem body_key_precedence (body key : jsval) (env env' : option jsstring)
    (pick pick' : nat)
    (fetch : upstream_request -> completion upstream_response) :
  get_field body (codes "key") = Normal key -> truthy key = true ->
  handler (POST body) env pick fetch = handler (POST body) env' pick' fetch.
Proof.
  intros Hkey Htrue. unfold handler, handler_try. simpl.
  destruct body; simpl in *; try done;
    try (injection Hkey as <-; discriminate).
  injection Hkey as Hkey. rewrite Hkey.
  by rewrite !choose_key_truthy.
Qed.

(** X19, an instance. *)
Lemma body_key_precedence_witness :
  get_field (JObj keyed_fields) (codes "key") = Normal (JStr (codes "K"))
  /\ truthy (JStr (codes "K")) = true
  /\ handler (POST (JObj keyed_fields)) None 0 unreachable
     = handler (POST (JObj keyed_fields)) (Some (codes "a,b")) 1 unreachable.
Proof.
  do 2 (split; [reflexivity|]).
  apply (body_key_precedence (JObj keyed_fields) (JStr (codes "K")));
    reflexivity.
Defined.

(** X20.  When the upstream API answers with an error status, the reply
    has that status and carries the upstream text as [detail]; a status
    that [new Response] refuses with a body (below 200, above 599, or
    101, 103, 204, 205, 304) gives a 500 reply instead.  When the model
    or the key has no conversion to text the upstream API is not reached:
    line 63 throws and the reply is the 500 of the [catch]. *)
Theorem upstream_error_reply (fields : list (jsstring * jsval))
    (env : option jsstring) (pick : nat) (res : upstream_response)
    (t : jsstring) :
  truthy (choose_key (own_property (codes "key") fields) env pick) = true ->
  up_ok res = false -> up_text res = Normal t ->
  snd (handler (POST (JObj fields)) env pick (fun _ => Normal res))
  = if ToString_throws (modelName (own_property (codes "model") fields))
       || ToString_throws
            (choose_key (own_property (codes "key") fields) env pick)
    then
      {| status := 500; json_header := true; chunked := false;
         content := InternalError TypeError |}
    else if bad_status (up_status res) then
      {| status := 500; json_header := true; chunked := false;
         content := InternalError
                      (if (up_status res <? 200) || (599 <? up_status res)
                       then OtherError else TypeError) |}
    else
      {| status := up_status res; json_header := true; chunked := false;
         content := JsonOf (JObj [(codes "error", JStr (codes "Gemini API Error"));
                                  (codes "detail", JStr t)]) |}.
Proof.
  intros Hk Hok Ht. unfold handler, handler_try.
  cbn [POST req_method req_json get_field bind]. rewrite bool_decide_eq_true_2 by done.
  cbn [negb]. rewrite Hk. cbn [negb].
  destruct (ToString_throws _ || ToString_throws _); [done|].
  rewrite Hok, Ht. cbn [negb]. unfold new_Response, bad_status.
  destruct ((up_status res <? 200) || (599 <? up_status res)); [done|].
  simpl. by destruct (null_body_status (up_status res)).
Qed.

(** X20, an instance: status 429. *)
Lemma upstream_error_reply_witness :
  truthy (choose_key (own_property (codes "key") keyed_fields) None 0) = true
  /\ up_ok too_many_requests = false
  /\ up_text too_many_requests = Normal (codes "quota")
  /\ snd (handler (POST (JObj keyed_fields)) None 0
            (fun _ => Normal too_many_requests))
     = if ToString_throws
            (modelName (own_property (codes "model") keyed_fields))
          || ToString_throws
               (choose_key (own_property (codes "key") keyed_fields) None 0)
       then
         {| status := 500; json_header := true; chunked := false;
            content := InternalError TypeError |}
       else if bad_status (up_status too_many_requests) then
         {| status := 500; json_header := true; chunked := false;
            content := InternalError
                         (if (up_status too_many_requests <? 200)
                             || (599 <? up_status too_many_requests)
                          then OtherError else TypeError) |}
       else
         {| status := up_status too_many_requests; json_header := true;
            chunked := false;
            content := JsonOf (JObj [(codes "error",
                                      JStr (codes "Gemini API Error"));
                                     (codes "detail", JStr (codes "quota"))]) |}.
Proof.
  do 3 (split; [reflexivity|]).
  apply (upstream_error_reply keyed_fields None 0 too_many_requests
           (codes "quota")); reflexivity.
Defined.

(** Two requests that pass the guard of line 41: the key [[]], whose
    text in the URL is empty, reaches the upstream API; the model with an
    own [toString] stops the handler at line 63. *)
Lemma key_guard_is_on_values :
  handler (POST (JObj empty_array_key)) None 0 unreachable
  = ([ {| url_model := JStr (codes "gemini-1.5-flash");
          url_method := generateContent;
          url_key := JArr [];
          payload := make_payload (JArr []) JUndefined JUndefined
                       JUndefined |} ],
     {| status := 500; json_header := true; chunked := false;
        content := InternalError OtherError |})
  /\ handler (POST (JObj unprintable_model)) None 0 unreachable
     = ([], {| status := 500; json_header := true; chunked := false;
               content := InternalError TypeError |}).
Proof. split; reflexivity. Qed.

(** X21.  Without a truthy key in the body and without a usable key in
    the environment (the variable unset, empty, or made of commas and
    white space only) the reply is the 500 configuration error and the
    upstream API is not called. *)
Theorem no_key_reply (fields : list (jsstring * jsval))
    (env : option jsstring) (pick : nat)
    (fetch : upstream_request -> completion upstream_response) :
  truthy (own_property (codes "key") fields) = false ->
  match env with Some raw => env_keys raw = [] | None => True end ->
  handler (POST (JObj fields)) env pick fetch
  = ([], {| status := 500; json_header := true; chunked := false;
            content := error_body
              "Server Configuration Error: No valid Gemini keys found." |}).
Proof.
  intros Hk Henv. unfold handler, handler_try. simpl.
  by rewrite choose_key_none, Hk.
Qed.

(** X21, an instance: the variable holds commas and spaces. *)
Lemma no_key_reply_witness :
  truthy (own_property (codes "key") []) = false
  /\ env_keys (codes " , ,") = []
  /\ handler (POST (JObj [])) (Some (codes " , ,")) 0 unreachable
     = ([], {| status := 500; json_header := true; chunked := false;
               content := error_body
                 "Server Configuration Error: No valid Gemini keys found." |}).
Proof.
  do 2 (split; [reflexivity|]).
  apply (no_key_reply [] (Some (codes " , ,")) 0 unreachable); reflexivity.
Defined.

(** X22.  For the body [callGeminiApi] posts, the proxy asks the upstream
    API for a stream exactly when the caller supplied [onChunk], with the
    caller's contents and model (the default model when it is empty) and
    the key picked from the environment. *)
Theorem client_request_forwarded (prompt model : jsstring) (onChunk : bool)
    (raw : jsstring) (pick : nat) (k : jsstring)
    (fetch : upstream_request -> completion upstream_response) :
  env_keys raw !! pick = Some k ->
  fst (handler (POST (client_body prompt model onChunk)) (Some raw) pick fetch)
  = [ {| url_model := if nonempty model then JStr model
                      else JStr (codes "gemini-1.5-flash");
         url_method := if onChunk then streamGenerateContent
                       else generateContent;
         url_key := JStr k;
         payload := make_payload
                      (JArr [JObj [(codes "role", JStr (codes "user"));
                                   (codes "parts",
                                    JArr [JObj [(codes "text", JStr prompt)]])]])
                      JUndefined JUndefined JUndefined |} ].
Proof.
  intros Hk.
  assert (clean_key k) as Hclean.
  { pose proof (env_keys_clean raw) as Hc. rewrite Forall_forall in Hc.
    apply Hc. by eapply list_elem_of_lookup_2. }
  assert (choose_key JUndefined (Some raw) pick = JStr k) as Hchoose.
  { unfold choose_key. simpl.
    destruct raw as [|c raw]; [done|]. simpl nonempty. cbv iota.
    destruct (env_keys (c :: raw)) as [|k0 ks]; [done|]. simpl length.
    cbn [Nat.ltb Nat.leb]. by rewrite Hk. }
  assert (modelName (JStr model)
          = if nonempty model then JStr model
            else JStr (codes "gemini-1.5-flash")) as Hmodel by done.
  assert (ToString_throws (modelName (JStr model)) = false) as Hm.
  { rewrite Hmodel. by destruct (nonempty model). }
  rewrite handler_calls. unfold handler_try, client_body.
  cbn [POST req_method req_json get_field bind].
  rewrite bool_decide_eq_true_2 by done. cbn [negb].
  change (own_property (codes "key") _) with JUndefined.
  change (own_property (codes "model") _) with (JStr model).
  change (own_property (codes "stream") _) with (JBool onChunk).
  change (own_property (codes "contents") _)
    with (JArr [JObj [(codes "role", JStr (codes "user"));
                      (codes "parts",
                       JArr [JObj [(codes "text", JStr prompt)]])]]).
  change (own_property (codes "tools") _) with JUndefined.
  change (own_property (codes "tool_config") _) with JUndefined.
  change (own_property (codes "system_instruction") _) with JUndefined.
  rewrite Hchoose, (clean_key_truthy k Hclean), Hm, Hmodel.
  cbn [negb orb ToString_throws truthy].
  match goal with
  | |- context [fetch ?r] => destruct (fetch r) as [res|?]
  end; [|done].
  destruct (up_ok res); cbn [negb].
  - destruct onChunk; [done|]. by destruct (up_json res).
  - by destruct (up_text res).
Qed.

(** X22, an instance: a streaming call, the second of two keys. *)
Lemma client_request_witness :
  env_keys (codes "a, b") !! 1%nat = Some (codes "b")
  /\ fst (handler (POST (client_body (codes "hi") (codes "gemini-pro") true))
            (Some (codes "a, b")) 1 unreachable)
     = [ {| url_model := if nonempty (codes "gemini-pro")
                         then JStr (codes "gemini-pro")
                         else JStr (codes "gemini-1.5-flash");
            url_method := if true then streamGenerateContent
                          else generateContent;
            url_key := JStr (codes "b");
            payload := make_payload
                         (JArr [JObj [(codes "role", JStr (codes "user"));
                                      (codes "parts",
                                       JArr [JObj [(codes "text",
                                                    JStr (codes "hi"))]])]])
                         JUndefined JUndefined JUndefined |} ].
Proof.
  split; [reflexivity|].
  apply (client_request_forwarded (codes "hi") (codes "gemini-pro") true
           (codes "a, b") 1 (codes "b") unreachable). reflexivity.
Defined.
